(** * The DMC Madeira carousel controller

    A shallow embedding of the class [DMCCarousel] (the variant with mouse
    dragging and the forced [goTo]) and of the properties the specification
    states about it.

    JavaScript numbers are modelled as exact rationals ([Q]): finite values,
    arithmetic without rounding.  Numeric equality ([===] on numbers) is
    [Qeq]; statements about numbers are therefore written with [==].
    Division is only meaningful for a non-zero divisor (JavaScript yields
    an infinity or NaN there), so every statement that reads a quotient
    carries the hypothesis that the divisor is not zero.

    The DOM is modelled by what the controller reads and writes: the number
    of slides, the optional buttons and progress fill, the inline transform
    and transition of the track, the two widths it measures, and the
    browser's table of interval timers.  The touch handlers are left out:
    they read the position back from the text of the style attribute.

    After the controller come the touch-only variant of the class (the
    second copy in the same file), the two callers in main.js, and the
    image loader of lazy-load.js, each with the properties proved about
    it in the second half of the file. *)

From Stdlib Require Import QArith Qround Qminmax Qabs Lqa.
From stdpp Require Import gmap sorting strings.

#[local] Set Warnings "-clear-no-such-hyp".

Local Open Scope Q_scope.

(** ** Numbers *)

Module Num.

(** [a < b] and [a > b] on numbers. *)
Definition ltb (a b : Q) : bool := negb (Qle_bool b a).

(** [Math.round]: the nearest integer, ties towards plus infinity. *)
Definition round (x : Q) : Z := Qfloor (x + (1 # 2)).

(** [Math.ceil]. *)
Definition ceil (x : Q) : Z := Qceiling x.

(** [Math.max(lo, Math.min(x, hi))]. *)
Definition clamp (lo hi x : Q) : Q := Qmax lo (Qmin x hi).

(** A number that has an integer value. *)
Definition is_integer (x : Q) : Prop := exists z : Z, x == inject_Z z.

End Num.

(** ** Options *)

(** A partial options object: the properties a breakpoint, or the caller
    of the constructor, sets. *)
Record Overrides := mkOverrides {
  ov_slidesPerView : option Q;
  ov_gap : option Q;
  ov_autoplay : option bool;
  ov_autoplaySpeed : option Q;
  ov_infinite : option bool
}.

(** [this.options].  The keys of [breakpoints] are viewport widths in
    whole pixels, each with the partial options that apply up to that
    width. *)
Record Options := mkOptions {
  slidesPerView : Q;
  gap : Q;
  autoplay : bool;
  autoplaySpeed : Q;
  infinite : bool;
  breakpoints : gmap Z Overrides
}.

(** What the caller passes to the constructor. *)
Record UserOptions := mkUserOptions {
  user_fields : Overrides;
  user_breakpoints : option (gmap Z Overrides)
}.

Definition no_overrides : Overrides := mkOverrides None None None None None.

(** [{ ...o, ...p }]: the properties present in [p] replace those of [o]. *)
Definition spread (o : Options) (p : Overrides) : Options :=
  {| slidesPerView := default (slidesPerView o) (ov_slidesPerView p);
     gap := default (gap o) (ov_gap p);
     autoplay := default (autoplay o) (ov_autoplay p);
     autoplaySpeed := default (autoplaySpeed o) (ov_autoplaySpeed p);
     infinite := default (infinite o) (ov_infinite p);
     breakpoints := breakpoints o |}.

Definition default_options : Options :=
  {| slidesPerView := 4; gap := 24; autoplay := false;
     autoplaySpeed := 5000; infinite := false; breakpoints := ∅ |}.

(** ** The browser *)

(** What the controller measures when it runs: [window.innerWidth] and the
    container's [offsetWidth], both whole pixels. *)
Record Env := mkEnv {
  innerWidth : Z;
  offsetWidth : Z
}.

(** The window's repeating timers: the ids that are live and the next id
    [setInterval] hands out. *)
Record Timers := mkTimers {
  live : gset positive;
  next_id : positive
}.

Definition setInterval (t : Timers) : positive * Timers :=
  (next_id t, {| live := {[ next_id t ]} ∪ live t; next_id := Pos.succ (next_id t) |}).

Definition clearInterval (id : positive) (t : Timers) : Timers :=
  {| live := live t ∖ {[ id ]}; next_id := next_id t |}.

(** The inline [transition] of the track. *)
Inductive Transition := TransitionUnset | TransitionNone | TransitionEase.

(** The container element as the constructor finds it. *)
Record Container := mkContainer {
  track_children : option nat;
  prev_button : option bool;
  next_button : option bool;
  progress_fill : option Q
}.

(** ** The controller *)

(** The instance.  In [prevBtn] and [nextBtn] the value is the button's
    [disabled] flag and in [progressBar] the fill's width in percent;
    [None] is an element the page does not have.  [track_transform] is the
    horizontal translation in pixels.  [animation_timeouts] and
    [drag_timeouts] count the pending [setTimeout] callbacks of [goTo] and
    of the drag release. *)
Record Carousel := mkCarousel {
  options : Options;
  slides_length : nat;
  prevBtn : option bool;
  nextBtn : option bool;
  progressBar : option Q;
  currentIndex : Q;
  maxIndex : Q;
  slideWidth : Q;
  autoplayInterval : option positive;
  isAnimating : bool;
  isDragging : bool;
  dragStartX : Q;
  dragMoved : bool;
  track_transform : option Q;
  track_transition : Transition;
  animation_timeouts : nat;
  drag_timeouts : nat
}.

(** Assignments to the fields. *)

Definition set_currentIndex (v : Q) (c : Carousel) : Carousel :=
  mkCarousel (options c) (slides_length c) (prevBtn c) (nextBtn c) (progressBar c)
    v (maxIndex c) (slideWidth c) (autoplayInterval c) (isAnimating c)
    (isDragging c) (dragStartX c) (dragMoved c) (track_transform c)
    (track_transition c) (animation_timeouts c) (drag_timeouts c).

Definition set_dimensions (w m : Q) (c : Carousel) : Carousel :=
  mkCarousel (options c) (slides_length c) (prevBtn c) (nextBtn c) (progressBar c)
    (currentIndex c) m w (autoplayInterval c) (isAnimating c)
    (isDragging c) (dragStartX c) (dragMoved c) (track_transform c)
    (track_transition c) (animation_timeouts c) (drag_timeouts c).

Definition set_buttons (p n : option bool) (c : Carousel) : Carousel :=
  mkCarousel (options c) (slides_length c) p n (progressBar c)
    (currentIndex c) (maxIndex c) (slideWidth c) (autoplayInterval c) (isAnimating c)
    (isDragging c) (dragStartX c) (dragMoved c) (track_transform c)
    (track_transition c) (animation_timeouts c) (drag_timeouts c).

Definition set_progressBar (p : option Q) (c : Carousel) : Carousel :=
  mkCarousel (options c) (slides_length c) (prevBtn c) (nextBtn c) p
    (currentIndex c) (maxIndex c) (slideWidth c) (autoplayInterval c) (isAnimating c)
    (isDragging c) (dragStartX c) (dragMoved c) (track_transform c)
    (track_transition c) (animation_timeouts c) (drag_timeouts c).

Definition set_autoplayInterval (i : option positive) (c : Carousel) : Carousel :=
  mkCarousel (options c) (slides_length c) (prevBtn c) (nextBtn c) (progressBar c)
    (currentIndex c) (maxIndex c) (slideWidth c) i (isAnimating c)
    (isDragging c) (dragStartX c) (dragMoved c) (track_transform c)
    (track_transition c) (animation_timeouts c) (drag_timeouts c).

Definition set_isAnimating (b : bool) (c : Carousel) : Carousel :=
  mkCarousel (options c) (slides_length c) (prevBtn c) (nextBtn c) (progressBar c)
    (currentIndex c) (maxIndex c) (slideWidth c) (autoplayInterval c) b
    (isDragging c) (dragStartX c) (dragMoved c) (track_transform c)
    (track_transition c) (animation_timeouts c) (drag_timeouts c).

Definition set_drag (dragging : bool) (start : Q) (moved : bool) (c : Carousel) : Carousel :=
  mkCarousel (options c) (slides_length c) (prevBtn c) (nextBtn c) (progressBar c)
    (currentIndex c) (maxIndex c) (slideWidth c) (autoplayInterval c) (isAnimating c)
    dragging start moved (track_transform c)
    (track_transition c) (animation_timeouts c) (drag_timeouts c).

Definition set_transform (x : Q) (c : Carousel) : Carousel :=
  mkCarousel (options c) (slides_length c) (prevBtn c) (nextBtn c) (progressBar c)
    (currentIndex c) (maxIndex c) (slideWidth c) (autoplayInterval c) (isAnimating c)
    (isDragging c) (dragStartX c) (dragMoved c) (Some x)
    (track_transition c) (animation_timeouts c) (drag_timeouts c).

Definition set_transition (t : Transition) (c : Carousel) : Carousel :=
  mkCarousel (options c) (slides_length c) (prevBtn c) (nextBtn c) (progressBar c)
    (currentIndex c) (maxIndex c) (slideWidth c) (autoplayInterval c) (isAnimating c)
    (isDragging c) (dragStartX c) (dragMoved c) (track_transform c)
    t (animation_timeouts c) (drag_timeouts c).

Definition set_timeouts (a d : nat) (c : Carousel) : Carousel :=
  mkCarousel (options c) (slides_length c) (prevBtn c) (nextBtn c) (progressBar c)
    (currentIndex c) (maxIndex c) (slideWidth c) (autoplayInterval c) (isAnimating c)
    (isDragging c) (dragStartX c) (dragMoved c) (track_transform c)
    (track_transition c) a d.

(** *** Responsive options *)

(** The order of [sort((a, b) => b - a)]. *)
Definition descending (a b : Z) : Prop := (b ≤ a)%Z.

#[global] Instance descending_dec a b : Decision (descending a b) := Z.le_dec b a.

(** [Object.keys(breakpoints).map(Number).sort(...)]. *)
Definition sortedBreakpoints (o : Options) : list Z :=
  merge_sort descending (map_to_list (breakpoints o)).*1.

(** One turn of the loop over the sorted breakpoints. *)
Definition apply_breakpoint (windowWidth : Z) (source acc : Options) (breakpoint : Z) : Options :=
  if bool_decide (windowWidth ≤ breakpoint)%Z then
    match breakpoints source !! breakpoint with
    | Some p => spread acc p
    | None => acc
    end
  else acc.

Definition getResponsiveOptions (windowWidth : Z) (o : Options) : Options :=
  fold_left (apply_breakpoint windowWidth o) (sortedBreakpoints o) o.

(** *** Dimensions, controls, progress *)

Definition calculateDimensions (env : Env) (c : Carousel) : Carousel :=
  let containerWidth := inject_Z (offsetWidth env) in
  let currentOptions := getResponsiveOptions (innerWidth env) (options c) in
  let spv := slidesPerView currentOptions in
  let g := gap currentOptions in
  set_dimensions
    ((containerWidth - g * (spv - 1)) / spv)
    (Qmax 0 (inject_Z (Z.of_nat (slides_length c)) - spv))
    c.

Definition updateControls (c : Carousel) : Carousel :=
  set_buttons
    (match prevBtn c with
     | Some _ => Some (negb (infinite (options c)) && Qeq_bool (currentIndex c) 0)
     | None => None
     end)
    (match nextBtn c with
     | Some _ => Some (negb (infinite (options c)) && Qle_bool (maxIndex c) (currentIndex c))
     | None => None
     end)
    c.

(** The percentage [updateProgress] computes. *)
Definition progress (c : Carousel) : Q :=
  if Num.ltb 0 (maxIndex c)
  then ((currentIndex c + 1) / (maxIndex c + 1)) * 100
  else 100.

Definition updateProgress (c : Carousel) : Carousel :=
  match progressBar c with
  | Some _ => set_progressBar (Some (progress c)) c
  | None => c
  end.

(** *** Navigation *)

(** The transform is written as [translateX(-${translateX}px)]; for a
    negative [translateX] that text is not a length and the assignment is
    dropped by the browser. *)
Definition goTo (env : Env) (c : Carousel) (index : Q) (force : bool) : Carousel :=
  if isAnimating c && negb force then c
  else if negb force && Qeq_bool index (currentIndex c) then c
  else
    let c1 := set_isAnimating true c in
    let c2 := set_currentIndex (Num.clamp 0 (maxIndex c1) index) c1 in
    let currentOptions := getResponsiveOptions (innerWidth env) (options c2) in
    let translateX := currentIndex c2 * (slideWidth c2 + gap currentOptions) in
    let c3 := if isDragging c2 then c2 else set_transition TransitionEase c2 in
    let c4 := if Qle_bool 0 translateX then set_transform (- translateX) c3 else c3 in
    let c5 := updateProgress (updateControls c4) in
    set_timeouts (S (animation_timeouts c5)) (drag_timeouts c5) c5.

Definition prev (env : Env) (c : Carousel) : Carousel :=
  if isAnimating c then c
  else if Num.ltb 0 (currentIndex c) then goTo env c (currentIndex c - 1) false
  else if infinite (options c) then goTo env c (maxIndex c) false
  else c.

Definition next (env : Env) (c : Carousel) : Carousel :=
  if isAnimating c then c
  else if Num.ltb (currentIndex c) (maxIndex c) then goTo env c (currentIndex c + 1) false
  else if infinite (options c) then goTo env c 0 false
  else c.

(** The callback [goTo] schedules after 500ms. *)
Definition animationTimeout (c : Carousel) : Carousel :=
  match animation_timeouts c with
  | O => c
  | S n => set_isAnimating false (set_timeouts n (drag_timeouts c) c)
  end.

(** The debounced callback of the resize listener. *)
Definition resizeTimeout (env : Env) (c : Carousel) : Carousel :=
  let c1 := calculateDimensions env c in
  goTo env c1 (Qmin (currentIndex c1) (maxIndex c1)) false.

(** *** Mouse dragging *)

Definition handleMouseDown (c : Carousel) (pageX : Q) : Carousel :=
  set_transition TransitionNone (set_drag true pageX false c).

Definition handleMouseMove (env : Env) (c : Carousel) (pageX : Q) : Carousel :=
  if negb (isDragging c) then c
  else
    let diff := pageX - dragStartX c in
    let c1 := if Num.ltb 5 (Qabs diff) then set_drag (isDragging c) (dragStartX c) true c else c in
    let currentOptions := getResponsiveOptions (innerWidth env) (options c1) in
    let cardWidth := slideWidth c1 + gap currentOptions in
    let baseTranslate := - currentIndex c1 * cardWidth in
    let newTranslate := baseTranslate + diff in
    set_transform newTranslate c1.

Definition handleMouseUp (env : Env) (c : Carousel) (pageX : Q) : Carousel :=
  if negb (isDragging c) then c
  else
    let c1 := set_transition TransitionEase (set_drag false (dragStartX c) (dragMoved c) c) in
    let diff := pageX - dragStartX c1 in
    let currentOptions := getResponsiveOptions (innerWidth env) (options c1) in
    let cardWidth := slideWidth c1 + gap currentOptions in
    let cardsMoved := Num.round (diff / cardWidth) in
    let newIndex := currentIndex c1 - inject_Z cardsMoved in
    let c2 := goTo env c1 (Num.clamp 0 (maxIndex c1) newIndex) true in
    if dragMoved c2
    then set_timeouts (animation_timeouts c2) (S (drag_timeouts c2)) c2
    else c2.

(** The callback the drag release schedules after 100ms. *)
Definition dragTimeout (c : Carousel) : Carousel :=
  match drag_timeouts c with
  | O => c
  | S n => set_drag (isDragging c) (dragStartX c) false (set_timeouts (animation_timeouts c) n c)
  end.

(** *** Autoplay *)

Definition startAutoplay (t : Timers) (c : Carousel) : Timers * Carousel :=
  match autoplayInterval c with
  | Some _ => (t, c)
  | None =>
      let (id, t') := setInterval t in
      (t', set_autoplayInterval (Some id) c)
  end.

Definition stopAutoplay (t : Timers) (c : Carousel) : Timers * Carousel :=
  match autoplayInterval c with
  | Some id => (clearInterval id t, set_autoplayInterval None c)
  | None => (t, c)
  end.

Definition destroy (t : Timers) (c : Carousel) : Timers * Carousel :=
  stopAutoplay t c.

(** The callback of the autoplay interval. *)
Definition autoplayTick (env : Env) (c : Carousel) : Carousel :=
  if Qle_bool (maxIndex c) (currentIndex c)
  then (if infinite (options c) then goTo env c 0 false else c)
  else next env c.

(** *** Construction *)

Definition init (env : Env) (t : Timers) (c : Carousel) : Timers * Carousel :=
  let c1 := updateProgress (updateControls (calculateDimensions env c)) in
  if autoplay (options c1) then startAutoplay t c1 else (t, c1).

(** The options the constructor stores: the defaults, overwritten by what
    the caller passes. *)
Definition constructor_options (user : UserOptions) : Options :=
  let o := spread default_options (user_fields user) in
  mkOptions (slidesPerView o) (gap o) (autoplay o) (autoplaySpeed o) (infinite o)
    (default ∅ (user_breakpoints user)).

(** The instance as the constructor has filled it in when it calls [init]. *)
Definition constructor_fields (container : Container) (n : nat) (user : UserOptions) : Carousel :=
  {| options := constructor_options user;
     slides_length := n;
     prevBtn := prev_button container;
     nextBtn := next_button container;
     progressBar := progress_fill container;
     currentIndex := 0;
     maxIndex := 0;
     slideWidth := 0;
     autoplayInterval := None;
     isAnimating := false;
     isDragging := false;
     dragStartX := 0;
     dragMoved := false;
     track_transform := None;
     track_transition := TransitionUnset;
     animation_timeouts := 0;
     drag_timeouts := 0 |}.

(** [new DMCCarousel(element, options)]; [None] when the constructor
    returns before it has set up the instance (no container, no track or
    no slide).  [maxIndex] and [slideWidth] are not yet defined when [init]
    starts; the 0 they hold here is overwritten by [calculateDimensions]
    before anything reads them. *)
Definition new_DMCCarousel (env : Env) (t : Timers)
    (element : option Container) (user : UserOptions) : option (Timers * Carousel) :=
  match element with
  | None => None
  | Some container =>
      match track_children container with
      | None | Some O => None
      | Some n => Some (init env t (constructor_fields container n user))
      end
  end.

(** ** Events *)

(** What can happen to an instance: the public methods, the listeners
    [bindEvents] installs and the timer callbacks. *)
Inductive Event :=
| CallPrev
| CallNext
| CallGoTo (index : Q) (force : bool)
| AnimationTimeout
| ResizeTimeout
| MouseDown (pageX : Q)
| MouseMove (pageX : Q)
| MouseUp (pageX : Q)
| DragTimeout
| MouseEnter
| MouseLeave
| AutoplayTick
| CallStartAutoplay
| CallStopAutoplay
| CallDestroy.

Definition step (env : Env) (ev : Event) (w : Timers * Carousel) : Timers * Carousel :=
  let (t, c) := w in
  match ev with
  | CallPrev => (t, prev env c)
  | CallNext => (t, next env c)
  | CallGoTo index force => (t, goTo env c index force)
  | AnimationTimeout => (t, animationTimeout c)
  | ResizeTimeout => (t, resizeTimeout env c)
  | MouseDown x => (t, handleMouseDown c x)
  | MouseMove x => (t, handleMouseMove env c x)
  | MouseUp x => (t, handleMouseUp env c x)
  | DragTimeout => (t, dragTimeout c)
  | MouseEnter => if autoplay (options c) then stopAutoplay t c else (t, c)
  | MouseLeave => if autoplay (options c) then startAutoplay t c else (t, c)
  | AutoplayTick =>
      match autoplayInterval c with
      | Some id => if bool_decide (id ∈ live t) then (t, autoplayTick env c) else (t, c)
      | None => (t, c)
      end
  | CallStartAutoplay => startAutoplay t c
  | CallStopAutoplay => stopAutoplay t c
  | CallDestroy => destroy t c
  end.

(** A run: the events in order, each with the widths measured when it
    happens. *)
Definition run (evs : list (Env * Event)) (w : Timers * Carousel) : Timers * Carousel :=
  fold_left (fun w e => step (fst e) (snd e) w) evs w.


(** ** The carousels of the site *)

(** The options [initExperiencesCarousel] passes (main.js). *)
Definition experiences_options : UserOptions :=
  {| user_fields := mkOverrides (Some 4) (Some 24) (Some false) None (Some false);
     user_breakpoints := Some
       (<[1200%Z := mkOverrides (Some 3) None None None None]>
        (<[900%Z := mkOverrides (Some 2) None None None None]>
         (<[600%Z := mkOverrides (Some (12 # 10)) (Some 16) None None None]> ∅))) |}.

(** The options [initWhyChooseCarousel] passes (main.js). *)
Definition why_choose_options : UserOptions :=
  {| user_fields := mkOverrides (Some (12 # 10)) (Some 16) (Some false) None (Some false);
     user_breakpoints := None |}.

(** Options with autoplay and wrap-around switched on. *)
Definition autoplaying_options : UserOptions :=
  {| user_fields := mkOverrides (Some 4) (Some 24) (Some true) (Some 3000) (Some true);
     user_breakpoints := None |}.

(** The configuration of the specification's example: the defaults (four
    slides per view, a gap of 24px) with breakpoints at 1200px and 600px. *)
Definition two_breakpoints : Options :=
  constructor_options
    {| user_fields := no_overrides;
       user_breakpoints := Some
         (<[1200%Z := mkOverrides (Some 3) None None None None]>
          (<[600%Z := mkOverrides (Some (12 # 10)) (Some 16) None None None]> ∅)) |}.

(** A container with a track of [n] slides, both buttons and a progress
    fill. *)
Definition page (n : nat) : Container :=
  {| track_children := Some n;
     prev_button := Some false;
     next_button := Some false;
     progress_fill := Some 0 |}.

Definition desktop : Env := {| innerWidth := 1440; offsetWidth := 1200 |}.

Definition phone : Env := {| innerWidth := 390; offsetWidth := 358 |}.

(** A container of 376px: with four slides per view and a gap of 24px a
    card (slide and gap) is 100px wide. *)
Definition narrow : Env := {| innerWidth := 1440; offsetWidth := 376 |}.

Definition no_timers : Timers := {| live := ∅; next_id := 1 |}.

(** ** main.js: the why-choose carousel *)

(** [initWhyChooseCarousel] keeps the instance in [carouselInstance]:
    [None] while it is null, [Some None] for an instance whose constructor
    returned before setting it up, [Some (Some c)] for a working one.  The
    element it measures is the container it passes to the constructor. *)
Module WhyChoose.

Definition createCarousel (env : Env) (t : Timers) (container : Container)
    (carouselInstance : option (option Carousel)) : Timers * option (option Carousel) :=
  match carouselInstance with
  | None =>
      if (0 <? offsetWidth env)%Z then
        match new_DMCCarousel env t (Some container) why_choose_options with
        | Some (t', c) => (t', Some (Some c))
        | None => (t, Some None)
        end
      else (t, None)
  | Some _ => (t, carouselInstance)
  end.

(** The debounced callback of its resize listener; [None] when it throws
    (the methods of an instance that was not set up read
    [this.options.breakpoints] of an undefined [options]). *)
Definition resizeTimeout (env : Env) (t : Timers) (container : Container)
    (carouselInstance : option (option Carousel))
    : option (Timers * option (option Carousel)) :=
  match carouselInstance with
  | None =>
      if (0 <? offsetWidth env)%Z
      then Some (createCarousel env t container carouselInstance)
      else Some (t, carouselInstance)
  | Some None => None
  | Some (Some c) =>
      let c1 := calculateDimensions env c in
      Some (t, Some (Some (goTo env c1 (currentIndex c1) true)))
  end.

End WhyChoose.

(** ** The touch-only variant *)

(** The second copy of the class in the file has no mouse dragging and no
    forced [goTo]; swipes are measured from the touch events.  Its
    [calculateDimensions], [getResponsiveOptions], [updateControls],
    [updateProgress] and autoplay methods are the same text as above and
    are reused; its instances are a [Carousel] whose drag fields are never
    written, with the two touch coordinates. *)
Module Legacy.

Record Instance := mkInstance {
  carousel : Carousel;
  touchStartX : Q;
  touchEndX : Q
}.

Definition goTo (env : Env) (c : Carousel) (index : Q) : Carousel :=
  if isAnimating c || Qeq_bool index (currentIndex c) then c
  else
    let c1 := set_isAnimating true c in
    let c2 := set_currentIndex (Num.clamp 0 (maxIndex c1) index) c1 in
    let currentOptions := getResponsiveOptions (innerWidth env) (options c2) in
    let translateX := currentIndex c2 * (slideWidth c2 + gap currentOptions) in
    let c3 := if Qle_bool 0 translateX then set_transform (- translateX) c2 else c2 in
    let c4 := updateProgress (updateControls c3) in
    set_timeouts (S (animation_timeouts c4)) (drag_timeouts c4) c4.

Definition prev (env : Env) (c : Carousel) : Carousel :=
  if isAnimating c then c
  else if Num.ltb 0 (currentIndex c) then goTo env c (currentIndex c - 1)
  else if infinite (options c) then goTo env c (maxIndex c)
  else c.

Definition next (env : Env) (c : Carousel) : Carousel :=
  if isAnimating c then c
  else if Num.ltb (currentIndex c) (maxIndex c) then goTo env c (currentIndex c + 1)
  else if infinite (options c) then goTo env c 0
  else c.

Definition handleTouchStart (i : Instance) (clientX : Q) : Instance :=
  {| carousel := carousel i; touchStartX := clientX; touchEndX := touchEndX i |}.

Definition handleTouchMove (i : Instance) (clientX : Q) : Instance :=
  {| carousel := carousel i; touchStartX := touchStartX i; touchEndX := clientX |}.

Definition handleTouchEnd (env : Env) (i : Instance) : Instance :=
  let diff := touchStartX i - touchEndX i in
  let threshold := 50 in
  if Num.ltb threshold (Qabs diff) then
    if Num.ltb 0 diff
    then {| carousel := next env (carousel i);
            touchStartX := touchStartX i; touchEndX := touchEndX i |}
    else {| carousel := prev env (carousel i);
            touchStartX := touchStartX i; touchEndX := touchEndX i |}
  else i.

(** [new DMCCarousel(element, options)] of this variant: the same set-up,
    with both touch coordinates at 0. *)
Definition new_DMCCarousel (env : Env) (t : Timers)
    (element : option Container) (user : UserOptions) : option (Timers * Instance) :=
  match new_DMCCarousel env t element user with
  | Some (t', c) => Some (t', {| carousel := c; touchStartX := 0; touchEndX := 0 |})
  | None => None
  end.

End Legacy.

(** ** lazy-load.js *)

(** The page as the script sees it: images and [source] elements with the
    attributes and classes it reads and writes.  A [Group] is a [picture]
    element with its sources and images in document order; an image
    outside a [picture] is a group with that image and no source, and
    sources outside a [picture] are a group without image (in both cases
    [closest('picture')], or the image found through it, is null, and the
    script does what it does for a group with an empty list).  [resolve]
    is the resolution of a URL against the document, as the [src] property
    of an image returns it; [has_observer] is whether the window has
    [IntersectionObserver]. *)
Module LazyLoad.

Record Img := mkImg {
  img_src : option string;
  img_srcset : option string;
  img_data_src : option string;
  img_data_srcset : option string;
  img_processed : bool;
  img_classes : gset string
}.

Record Source := mkSource {
  source_srcset : option string;
  source_data_srcset : option string;
  source_processed : bool
}.

Record Group := mkGroup {
  sources : list Source;
  images : list Img
}.

(** The document: the number of style elements the script has appended,
    the groups, the images the observers watch and the images whose
    preload is under way, both by position (group, image). *)
Record Page := mkPage {
  styleSheets : nat;
  groups : list Group;
  observed : gset (nat * nat);
  preloading : gset (nat * nat)
}.

Definition quote : string := String (Ascii.ascii_of_nat 34) EmptyString.

(** The transparent placeholder: an SVG data URL. *)
Definition placeholder : string :=
  String.append "data:image/svg+xml,%3Csvg xmlns="
    (String.append quote
      (String.append "http://www.w3.org/2000/svg"
        (String.append quote
          (String.append " viewBox="
            (String.append quote
              (String.append "0 0 1 1"
                (String.append quote "%3E%3C/svg%3E"))))))).

(** A string in a condition: true unless empty. *)
Definition truthy (s : string) : bool := negb (bool_decide (s = ""%string)).

(** The [srcset] property: the attribute, or the empty string. *)
Definition srcset_property (attribute : option string) : string :=
  default ""%string attribute.

Definition no_lazy (i : Img) : bool := bool_decide ("no-lazy"%string ∈ img_classes i).

(** [img:not(.no-lazy):not([data-lazy-processed])] and
    [source:not([data-lazy-processed])]. *)
Definition selected_img (i : Img) : bool := negb (no_lazy i) && negb (img_processed i).

Definition selected_source (s : Source) : bool := negb (source_processed s).

(** The body of [sources.forEach]; [skip] is whether the picture's first
    image has the class [no-lazy]. *)
Definition process_source (skip : bool) (s : Source) : Source :=
  if skip then mkSource (source_srcset s) (source_data_srcset s) true
  else if truthy (srcset_property (source_srcset s))
  then mkSource None (Some (srcset_property (source_srcset s))) true
  else mkSource (source_srcset s) (source_data_srcset s) true.

(** In [loadImage]: a source that has [data-srcset] gets it back. *)
Definition restore_source (s : Source) : Source :=
  match source_data_srcset s with
  | Some v => mkSource (Some v) None (source_processed s)
  | None => s
  end.

Section Browser.

Variable resolve : string -> string.
Variable has_observer : bool.

(** The [src] property: the empty string without the attribute, else the
    attribute resolved. *)
Definition src_property (i : Img) : string :=
  match img_src i with
  | Some u => resolve u
  | None => ""%string
  end.

(** The body of [images.forEach]. *)
Definition process_img (i : Img) : Img :=
  if no_lazy i
  then mkImg (img_src i) (img_srcset i) (img_data_src i) (img_data_srcset i) true
         (img_classes i)
  else
    let i1 :=
      if truthy (src_property i)
      then mkImg (Some placeholder) (img_srcset i) (Some (src_property i))
             (img_data_srcset i) (img_processed i) (img_classes i)
      else i in
    let i2 :=
      if truthy (srcset_property (img_srcset i1))
      then mkImg (img_src i1) None (img_data_src i1)
             (Some (srcset_property (img_srcset i1))) (img_processed i1) (img_classes i1)
      else i1 in
    mkImg (img_src i2) (img_srcset i2) (img_data_src i2) (img_data_srcset i2) true
      ({[ "lazy-image"%string ]} ∪ img_classes i2).

(** [tempImg.onload]. *)
Definition onload (i : Img) : Img :=
  let i1 :=
    match img_data_srcset i with
    | Some v => mkImg (img_src i) (Some v) (img_data_src i) None
                  (img_processed i) (img_classes i)
    | None => i
    end in
  let i2 :=
    match img_data_src i1 with
    | Some u => mkImg (Some u) (img_srcset i1) None (img_data_srcset i1)
                  (img_processed i1) (img_classes i1)
    | None => i1
    end in
  mkImg (img_src i2) (img_srcset i2) (img_data_src i2) (img_data_srcset i2)
    (img_processed i2) ({[ "loaded"%string ]} ∪ img_classes i2).

(** [tempImg.onerror]. *)
Definition onerror (i : Img) : Img :=
  let i1 :=
    match img_data_src i with
    | Some u => mkImg (Some u) (img_srcset i) None (img_data_srcset i)
                  (img_processed i) (img_classes i)
    | None => i
    end in
  mkImg (img_src i1) (img_srcset i1) (img_data_src i1) (img_data_srcset i1)
    (img_processed i1) ({[ "loaded"%string; "error"%string ]} ∪ img_classes i1).

(** What the two loops of [initLazyLoading] do to one group. *)
Definition process_group (g : Group) : Group :=
  let skip := match images g with
              | i :: _ => no_lazy i
              | [] => false
              end in
  {| sources := map (fun s => if selected_source s then process_source skip s else s)
                  (sources g);
     images := map (fun i => if selected_img i then process_img i else i) (images g) |}.

(** The positions of the images the selector finds, in document order:
    [lazyImages]. *)
Definition lazy_positions (gs : list Group) : list (nat * nat) :=
  mjoin (imap (fun g grp =>
           omap id (imap (fun k i => if selected_img i then Some (g, k) else None)
                      (images grp)))
         gs).

Definition nothing_selected (gs : list Group) : bool :=
  forallb (fun grp => forallb (fun i => negb (selected_img i)) (images grp)
                      && forallb (fun s => negb (selected_source s)) (sources grp)) gs.

(** [loadImage] for the image at a position: the sources of its picture
    get their [srcset] back and the preload starts when the image has one
    of the two data attributes. *)
Definition loadImage (p : Page) (pos : nat * nat) : Page :=
  match groups p !! fst pos with
  | Some grp =>
      match images grp !! snd pos with
      | Some i =>
          {| styleSheets := styleSheets p;
             groups := <[fst pos := {| sources := map restore_source (sources grp);
                                       images := images grp |}]> (groups p);
             observed := observed p;
             preloading :=
               if bool_decide (is_Some (img_data_srcset i) \/ is_Some (img_data_src i))
               then {[ pos ]} ∪ preloading p
               else preloading p |}
      | None => p
      end
  | None => p
  end.

Definition initLazyLoading (p : Page) : Page :=
  let p1 := mkPage (S (styleSheets p)) (groups p) (observed p) (preloading p) in
  if nothing_selected (groups p) then p1
  else
    let lazyImages := lazy_positions (groups p) in
    let p2 := mkPage (styleSheets p1) (map process_group (groups p))
                (observed p) (preloading p) in
    if has_observer
    then mkPage (styleSheets p2) (groups p2) (list_to_set lazyImages ∪ observed p2)
           (preloading p2)
    else fold_left loadImage lazyImages p2.

(** The callback of the observer for an image that intersects. *)
Definition intersecting (p : Page) (pos : nat * nat) : Page :=
  if bool_decide (pos ∈ observed p)
  then
    let p1 := loadImage p pos in
    mkPage (styleSheets p1) (groups p1) (observed p1 ∖ {[ pos ]}) (preloading p1)
  else p.

(** The end of a preload: [handler] is [onload] or [onerror]. *)
Definition settle (handler : Img -> Img) (p : Page) (pos : nat * nat) : Page :=
  if bool_decide (pos ∈ preloading p)
  then
    mkPage (styleSheets p)
      (alter (fun grp => {| sources := sources grp;
                            images := alter handler (snd pos) (images grp) |})
         (fst pos) (groups p))
      (observed p) (preloading p ∖ {[ pos ]})
  else p.

Inductive Event :=
| Refresh
| Intersecting (pos : nat * nat)
| Loaded (pos : nat * nat)
| Failed (pos : nat * nat).

Definition step (p : Page) (ev : Event) : Page :=
  match ev with
  | Refresh => initLazyLoading p
  | Intersecting pos => intersecting p pos
  | Loaded pos => settle onload p pos
  | Failed pos => settle onerror p pos
  end.

Definition run (evs : list Event) (p : Page) : Page := fold_left step evs p.

End Browser.

(** A page as it is parsed: no style element of the script, nothing
    observed, nothing loading. *)
Definition parsed (gs : list Group) : Page :=
  {| styleSheets := 0; groups := gs; observed := ∅; preloading := ∅ |}.

(** The image at a position. *)
Definition image_at (gs : list Group) (pos : nat * nat) : option Img :=
  (gs !! fst pos) ≫= (fun grp => images grp !! snd pos).

(** The images with the class [no-lazy] are as they were on the parsed
    page [gs], and none of them is observed or preloading. *)
Definition no_lazy_kept (gs : list Group) (p : Page) : Prop :=
  forall pos i,
    image_at gs pos = Some i -> no_lazy i = true ->
    image_at (groups p) pos = Some i /\ (pos ∉ observed p) /\ (pos ∉ preloading p).

End LazyLoad.

(** ** The properties the specification states *)

(** *** Navigation *)

(** The two guards at the head of [goTo]. *)
Definition goTo_dropped (c : Carousel) (index : Q) (force : bool) : bool :=
  (isAnimating c && negb force) || (negb force && Qeq_bool index (currentIndex c)).

(** The invariant of the index at rest. *)
Definition index_in_range (c : Carousel) : Prop :=
  0 <= currentIndex c /\ currentIndex c <= maxIndex c.

Definition positive_slidesPerView (p : Overrides) : bool :=
  match ov_slidesPerView p with
  | Some v => Num.ltb 0 v
  | None => true
  end.

(** A valid configuration: [slidesPerView] is positive, in the base options
    and in every breakpoint that sets it. *)
Definition valid_configuration (o : Options) : bool :=
  Num.ltb 0 (slidesPerView o)
  && forallb positive_slidesPerView (map_to_list (breakpoints o)).*2.

(** One call of [next] and the end of its transition. *)
Definition next_and_settle (env : Env) (c : Carousel) : Carousel :=
  animationTimeout (next env c).


(** Two states that differ at most in the inline transition of the
    track. *)
Definition same_but_transition (a b : Carousel) : Prop :=
  set_transition (track_transition b) a = b.

(** *** Dragging *)

(** The capturing click listener [bindEvents] puts on the track: a click
    is cancelled (default prevented, propagation stopped) exactly when
    [dragMoved] is set. *)
Definition click_cancelled (c : Carousel) : bool := dragMoved c.

(** The width of a card, slide and gap, as the drag handlers compute it. *)
Definition card_width (env : Env) (c : Carousel) : Q :=
  slideWidth c + gap (getResponsiveOptions (innerWidth env) (options c)).

(** *** Dimensions *)

(** The last index as the data model of the specification has it: after a
    recalculation [maxIndex] is an integer, equal to
    max(0, slideCount - ceil(slidesPerView)) for the effective
    [slidesPerView]. *)
Definition maxIndex_uses_ceiling (env : Env) (c : Carousel) : Prop :=
  let spv := slidesPerView (getResponsiveOptions (innerWidth env) (options c)) in
  let c' := calculateDimensions env c in
  Num.is_integer (maxIndex c')
  /\ maxIndex c' == Qmax 0 (inject_Z (Z.of_nat (slides_length c)) - inject_Z (Num.ceil spv)).

(** *** Breakpoints *)

(** The base options overlaid, in the order of [keys], by what the
    breakpoints at those keys set. *)
Definition overlay (o : Options) (keys : list Z) : Options :=
  fold_left (fun acc k => spread acc (default no_overrides (breakpoints o !! k))) keys o.

(** A breakpoint that applies at this width and sets the field of the
    options that [pick] reads. *)
Definition sets_field {A : Type} (pick : Overrides -> option A)
    (windowWidth : Z) (source : Options) (k : Z) : Prop :=
  (windowWidth ≤ k)%Z
  /\ exists p, breakpoints source !! k = Some p /\ is_Some (pick p).

(** *** Timers *)

(** The interval timers an instance holds. *)
Definition own_timers (c : Carousel) : gset positive :=
  match autoplayInterval c with
  | Some id => {[ id ]}
  | None => ∅
  end.

(** Ids are handed out in increasing order. *)
Definition timers_wf (t : Timers) : Prop :=
  forall id, id ∈ live t -> (id < next_id t)%positive.

(** The timers of the window are those it had before the instance was
    built, [others], and the one the instance holds. *)
Definition autoplay_inv (others : gset positive) (w : Timers * Carousel) : Prop :=
  timers_wf (fst w)
  /\ live (fst w) = others ∪ own_timers (snd w)
  /\ others ## own_timers (snd w).

(** * Proofs *)

(** Closed comparisons of numbers, by evaluation. *)
Ltac by_evaluation :=
  vm_compute; first [ reflexivity | discriminate | intro; discriminate ].

(** ** Numbers *)

Module NumFacts.
Import Num.

Lemma ltb_true a b : ltb a b = true <-> a < b.
Proof.
  unfold ltb. rewrite negb_true_iff, <- not_true_iff_false, Qle_bool_iff.
  split; [apply Qnot_le_lt | apply Qlt_not_le].
Qed.

Lemma ltb_false a b : ltb a b = false <-> b <= a.
Proof. unfold ltb. rewrite negb_false_iff. apply Qle_bool_iff. Qed.

Lemma clamp_lower lo hi x : lo <= clamp lo hi x.
Proof. apply Q.le_max_l. Qed.

Lemma clamp_upper lo hi x : lo <= hi -> clamp lo hi x <= hi.
Proof.
  intros H. unfold clamp. apply Q.max_lub; [exact H | apply Q.le_min_r].
Qed.

Lemma clamp_inside lo hi x : lo <= x -> x <= hi -> clamp lo hi x == x.
Proof.
  intros H1 H2. unfold clamp.
  rewrite (Q.min_l x hi) by exact H2. apply Q.max_r, H1.
Qed.

(** With an empty range the clamp is the lower bound. *)
Lemma clamp_collapse lo hi x : hi <= lo -> clamp lo hi x == lo.
Proof.
  intros H. unfold clamp. apply Q.max_l.
  apply Qle_trans with hi; [apply Q.le_min_r | exact H].
Qed.

Lemma clamp_idempotent lo hi x : clamp lo hi (clamp lo hi x) == clamp lo hi x.
Proof.
  destruct (Qlt_le_dec hi lo) as [Hlt | Hle].
  - rewrite !clamp_collapse by apply Qlt_le_weak, Hlt. reflexivity.
  - apply clamp_inside; [apply clamp_lower | apply clamp_upper, Hle].
Qed.

Lemma is_integer_inject z : is_integer (inject_Z z).
Proof. exists z; reflexivity. Qed.

Lemma is_integer_sub x y : is_integer x -> is_integer y -> is_integer (x - y).
Proof.
  intros [a Ha] [b Hb]. exists (a - b)%Z.
  rewrite Ha, Hb. unfold Zminus, Qminus.
  rewrite inject_Z_plus, inject_Z_opp. reflexivity.
Qed.

Lemma is_integer_max x y : is_integer x -> is_integer y -> is_integer (Qmax x y).
Proof.
  intros Hx Hy. destruct (Q.max_dec x y) as [E | E].
  - destruct Hx as [a Ha]. exists a. rewrite E. exact Ha.
  - destruct Hy as [b Hb]. exists b. rewrite E. exact Hb.
Qed.

(** The ceiling of an integer-valued number is the number itself. *)
Lemma ceil_integer x : is_integer x -> inject_Z (ceil x) == x.
Proof.
  intros [z Hz]. unfold ceil.
  rewrite (Qceiling_comp x (inject_Z z) Hz), Qceiling_Z.
  symmetry; exact Hz.
Qed.


End NumFacts.

(** ** What [goTo] changes *)

Section GoTo.

Variable env : Env.

Lemma goTo_dropped_eq c index force :
  goTo_dropped c index force = true -> goTo env c index force = c.
Proof.
  unfold goTo_dropped, goTo. intros H.
  destruct (isAnimating c && negb force); [reflexivity |].
  simpl in H. rewrite H. reflexivity.
Qed.

Lemma goTo_maxIndex c index force :
  maxIndex (goTo env c index force) = maxIndex c.
Proof.
  unfold goTo, updateProgress, updateControls.
  repeat case_match; reflexivity.
Qed.

Lemma goTo_options c index force :
  options (goTo env c index force) = options c.
Proof.
  unfold goTo, updateProgress, updateControls.
  repeat case_match; reflexivity.
Qed.

Lemma goTo_autoplayInterval c index force :
  autoplayInterval (goTo env c index force) = autoplayInterval c.
Proof.
  unfold goTo, updateProgress, updateControls.
  repeat case_match; reflexivity.
Qed.

Lemma goTo_currentIndex c index force :
  currentIndex (goTo env c index force) =
  if goTo_dropped c index force then currentIndex c
  else Num.clamp 0 (maxIndex c) index.
Proof.
  unfold goTo_dropped, goTo, updateProgress, updateControls.
  destruct (isAnimating c && negb force); [reflexivity |].
  destruct (negb force && Qeq_bool index (currentIndex c)); [reflexivity |].
  cbv [orb]. repeat case_match; reflexivity.
Qed.

Lemma goTo_isAnimating c index force :
  isAnimating (goTo env c index force) =
  if goTo_dropped c index force then isAnimating c else true.
Proof.
  unfold goTo_dropped, goTo, updateProgress, updateControls.
  destruct (isAnimating c && negb force); [reflexivity |].
  destruct (negb force && Qeq_bool index (currentIndex c)); [reflexivity |].
  cbv [orb]. repeat case_match; reflexivity.
Qed.

Lemma goTo_animation_timeouts c index force :
  animation_timeouts (goTo env c index force) =
  if goTo_dropped c index force then animation_timeouts c
  else S (animation_timeouts c).
Proof.
  unfold goTo_dropped, goTo, updateProgress, updateControls.
  destruct (isAnimating c && negb force); [reflexivity |].
  destruct (negb force && Qeq_bool index (currentIndex c)); [reflexivity |].
  cbv [orb]. repeat case_match; reflexivity.
Qed.

(** A forced call is never dropped. *)
Lemma goTo_forced_kept c index : goTo_dropped c index true = false.
Proof. unfold goTo_dropped. simpl. rewrite andb_false_r. reflexivity. Qed.




End GoTo.


(** ** Dimensions *)

Section Dimensions.

Variables (env : Env) (c : Carousel).

Let effective := getResponsiveOptions (innerWidth env) (options c).
Let count := inject_Z (Z.of_nat (slides_length c)).

Lemma calculateDimensions_maxIndex :
  maxIndex (calculateDimensions env c) = Qmax 0 (count - slidesPerView effective).
Proof. reflexivity. Qed.




Lemma calculateDimensions_maxIndex_integer :
  Num.is_integer (slidesPerView effective) ->
  Num.is_integer (maxIndex (calculateDimensions env c)).
Proof.
  intros H. rewrite calculateDimensions_maxIndex.
  apply NumFacts.is_integer_max.
  - exists 0%Z. reflexivity.
  - apply NumFacts.is_integer_sub; [apply NumFacts.is_integer_inject | exact H].
Qed.

End Dimensions.


(** The why-choose carousel (1.2 slides per view) with ten slides: after
    the recalculation [maxIndex] is 8.8, which is not an integer and is not
    max(0, 10 - ceil(1.2)) = 8. *)
Lemma maxIndex_uses_ceiling_fails :
  let c := constructor_fields (page 10) 10 why_choose_options in
  maxIndex (calculateDimensions phone c) == 88 # 10
  /\ Qmax 0 (10 - inject_Z (Num.ceil (12 # 10))) == 8
  /\ ~ maxIndex_uses_ceiling phone c.
Proof.
  intros c.
  assert (Hm : maxIndex (calculateDimensions phone c) == 88 # 10) by by_evaluation.
  split; [exact Hm |]. split; [by_evaluation |].
  intros [[z Hz] _]. rewrite Hm in Hz.
  unfold Qeq in Hz. simpl in Hz. lia.
Qed.

(** C2, amended.  After a recalculation [maxIndex] is
    max(0, slideCount - slidesPerView) for the effective [slidesPerView],
    fractional or not; when that [slidesPerView] is an integer, [maxIndex]
    is an integer and equals max(0, slideCount - ceil(slidesPerView)). *)
Theorem maxIndex_after_recalculation (env : Env) (c : Carousel) :
  let spv := slidesPerView (getResponsiveOptions (innerWidth env) (options c)) in
  let count := inject_Z (Z.of_nat (slides_length c)) in
  let c' := calculateDimensions env c in
  maxIndex c' == Qmax 0 (count - spv)
  /\ (Num.is_integer spv ->
      Num.is_integer (maxIndex c')
      /\ maxIndex c' == Qmax 0 (count - inject_Z (Num.ceil spv))).
Proof.
  intros spv count c'. split; [reflexivity |].
  intros Hint. split.
  - apply calculateDimensions_maxIndex_integer, Hint.
  - unfold c'. rewrite calculateDimensions_maxIndex.
    fold spv count. rewrite (NumFacts.ceil_integer spv Hint). reflexivity.
Qed.

(** The experiences carousel on a desktop: four slides per view, ten
    slides, [maxIndex] is the integer 6. *)
Lemma maxIndex_after_recalculation_witness :
  let c := constructor_fields (page 10) 10 experiences_options in
  Num.is_integer (slidesPerView (getResponsiveOptions (innerWidth desktop) (options c)))
  /\ Num.is_integer (maxIndex (calculateDimensions desktop c))
  /\ maxIndex (calculateDimensions desktop c) == 6.
Proof.
  assert (Hspv : Num.is_integer
            (slidesPerView (getResponsiveOptions (innerWidth desktop)
               (options (constructor_fields (page 10) 10 experiences_options))))).
  { exists 4%Z. by_evaluation. }
  split; [exact Hspv |].
  destruct (maxIndex_after_recalculation desktop
              (constructor_fields (page 10) 10 experiences_options)) as [_ H].
  destruct (H Hspv) as [Hi He].
  split; [exact Hi |].
  rewrite He. by_evaluation.
Defined.

(** C3.  After a recalculation, [maxIndex] is
    max(0, slideCount - slidesPerView) and [slideWidth] is
    (containerWidth - gap * (slidesPerView - 1)) / slidesPerView, with the
    [slidesPerView] and [gap] in effect at the current viewport width; the
    resize callback, which recalculates and then calls [goTo], leaves both
    at these values. *)
Theorem dimensions_after_recalculation (env : Env) (c : Carousel) :
  let o := getResponsiveOptions (innerWidth env) (options c) in
  let count := inject_Z (Z.of_nat (slides_length c)) in
  let containerWidth := inject_Z (offsetWidth env) in
  forall c', c' = calculateDimensions env c \/ c' = resizeTimeout env c ->
  maxIndex c' == Qmax 0 (count - slidesPerView o)
  /\ (~ slidesPerView o == 0 ->
      slideWidth c' == (containerWidth - gap o * (slidesPerView o - 1)) / slidesPerView o).
Proof.
  intros o count containerWidth c' [-> | ->].
  - split; [reflexivity | intros _; reflexivity].
  - unfold resizeTimeout. cbv zeta. rewrite goTo_maxIndex.
    split; [reflexivity |]. intros _.
    unfold goTo, updateProgress, updateControls.
    repeat case_match; reflexivity.
Qed.

(** The experiences carousel on a phone, where the breakpoint at 600px
    applies: 1.2 slides per view with a gap of 16px in a container of
    358px. *)
Lemma dimensions_after_recalculation_witness :
  let c := constructor_fields (page 10) 10 experiences_options in
  ~ slidesPerView (getResponsiveOptions (innerWidth phone) (options c)) == 0
  /\ maxIndex (calculateDimensions phone c) == 88 # 10
  /\ slideWidth (calculateDimensions phone c) == 887 # 3.
Proof.
  intros c.
  assert (Hspv : ~ slidesPerView (getResponsiveOptions (innerWidth phone) (options c)) == 0)
    by by_evaluation.
  split; [exact Hspv |].
  destruct (dimensions_after_recalculation phone c (calculateDimensions phone c)
              (or_introl eq_refl)) as [Hm Hw].
  split.
  - rewrite Hm. by_evaluation.
  - rewrite (Hw Hspv). by_evaluation.
Defined.

(** ** Dropped calls *)

Lemma goTo_dropped_animating c index :
  isAnimating c = true -> goTo_dropped c index false = true.
Proof. intros H. unfold goTo_dropped. rewrite H. reflexivity. Qed.

Lemma goTo_dropped_same c index :
  index == currentIndex c -> goTo_dropped c index false = true.
Proof.
  intros H. unfold goTo_dropped.
  apply Qeq_bool_iff in H. rewrite H. simpl. apply orb_true_r.
Qed.

(** C5.  An unforced [goTo] that arrives while [isAnimating] is set, or
    that names the current index, returns the state as it was, every field
    unchanged.  While [isAnimating] is set only a forced call changes the
    state, and a forced call does schedule a new transition. *)
Theorem goTo_unforced_is_dropped (env : Env) (c : Carousel) (index : Q) :
  (isAnimating c = true \/ index == currentIndex c -> goTo env c index false = c)
  /\ (forall force,
        isAnimating c = true -> goTo env c index force <> c -> force = true)
  /\ (isAnimating c = true ->
      animation_timeouts (goTo env c index true) = S (animation_timeouts c)).
Proof.
  split; [| split].
  - intros [H | H]; apply goTo_dropped_eq.
    + apply goTo_dropped_animating, H.
    + apply goTo_dropped_same, H.
  - intros [|] Hanim Hne; [reflexivity |].
    exfalso. apply Hne, goTo_dropped_eq, goTo_dropped_animating, Hanim.
  - intros _. rewrite goTo_animation_timeouts, goTo_forced_kept. reflexivity.
Qed.

(** The experiences carousel in the middle of the transition that [next]
    started: a click on a later index is dropped. *)
Lemma goTo_unforced_is_dropped_witness :
  let c := next desktop
             (calculateDimensions desktop
                (constructor_fields (page 10) 10 experiences_options)) in
  isAnimating c = true /\ goTo desktop c 3 false = c.
Proof.
  intros c.
  assert (H : isAnimating c = true) by by_evaluation.
  split; [exact H |].
  apply (goTo_unforced_is_dropped desktop c 3). left. exact H.
Defined.

(** ** The progress indicator *)





(** ** Releasing a drag *)

Section Release.

Variables (env : Env) (c : Carousel) (pageX : Q).

Hypothesis dragging : isDragging c = true.

Let cardWidth := slideWidth c + gap (getResponsiveOptions (innerWidth env) (options c)).
Let cardsMoved := Num.round ((pageX - dragStartX c) / cardWidth).
Let target := Num.clamp 0 (maxIndex c) (currentIndex c - inject_Z cardsMoved).

(** The state on which the release calls [goTo]. *)
Let released := set_transition TransitionEase (set_drag false (dragStartX c) (dragMoved c) c).

Lemma handleMouseUp_goTo :
  handleMouseUp env c pageX =
  let c2 := goTo env released target true in
  if dragMoved c2
  then set_timeouts (animation_timeouts c2) (S (drag_timeouts c2)) c2
  else c2.
Proof. unfold handleMouseUp. rewrite dragging. reflexivity. Qed.

Lemma handleMouseUp_currentIndex :
  currentIndex (handleMouseUp env c pageX) == target.
Proof.
  rewrite handleMouseUp_goTo. cbv zeta.
  transitivity (currentIndex (goTo env released target true)).
  - case_match; reflexivity.
  - rewrite goTo_currentIndex, goTo_forced_kept.
    apply NumFacts.clamp_idempotent.
Qed.

Lemma handleMouseUp_isAnimating :
  isAnimating (handleMouseUp env c pageX) = true.
Proof.
  rewrite handleMouseUp_goTo. cbv zeta.
  transitivity (isAnimating (goTo env released target true)).
  - case_match; reflexivity.
  - rewrite goTo_isAnimating, goTo_forced_kept. reflexivity.
Qed.



End Release.




(** ** Stepping with [next] *)

Section Stepping.

Variable env : Env.

Lemma animationTimeout_after_goTo c index force :
  goTo_dropped c index force = false ->
  let c' := animationTimeout (goTo env c index force) in
  isAnimating c' = false
  /\ currentIndex c' = Num.clamp 0 (maxIndex c) index
  /\ maxIndex c' = maxIndex c
  /\ options c' = options c.
Proof.
  intros Hkept c'. unfold c', animationTimeout.
  rewrite goTo_animation_timeouts, Hkept. cbn.
  rewrite goTo_currentIndex, goTo_maxIndex, goTo_options, Hkept. auto.
Qed.

Lemma next_and_settle_advances c :
  isAnimating c = false ->
  0 <= currentIndex c ->
  currentIndex c + 1 <= maxIndex c ->
  let c' := next_and_settle env c in
  isAnimating c' = false
  /\ currentIndex c' == currentIndex c + 1
  /\ maxIndex c' = maxIndex c
  /\ options c' = options c.
Proof.
  intros Hanim Hlo Hhi c'. unfold c', next_and_settle, next.
  rewrite Hanim.
  assert (Hlt : Num.ltb (currentIndex c) (maxIndex c) = true)
    by (apply NumFacts.ltb_true; lra).
  rewrite Hlt.
  assert (Hkept : goTo_dropped c (currentIndex c + 1) false = false).
  { unfold goTo_dropped. rewrite Hanim. simpl.
    apply not_true_iff_false. intros H. apply Qeq_bool_iff in H. lra. }
  destruct (animationTimeout_after_goTo c (currentIndex c + 1) false Hkept)
    as (H1 & H2 & H3 & H4).
  repeat split; try assumption.
  rewrite H2. apply NumFacts.clamp_inside; lra.
Qed.

(** [n] calls of [next], each after the previous transition has ended,
    move [n] slides forward when there are that many left. *)
Lemma next_and_settle_iter n : forall c (k : Z),
  isAnimating c = false ->
  currentIndex c == inject_Z k ->
  (0 <= k)%Z ->
  inject_Z (k + Z.of_nat n) <= maxIndex c ->
  let c' := Nat.iter n (next_and_settle env) c in
  isAnimating c' = false
  /\ currentIndex c' == inject_Z (k + Z.of_nat n)
  /\ maxIndex c' = maxIndex c
  /\ options c' = options c.
Proof.
  induction n as [| n IH]; intros c k Hanim Hidx Hk Hmax.
  - cbn. rewrite Z.add_0_r. auto.
  - assert (Hmax' : inject_Z (k + Z.of_nat n) <= maxIndex c).
    { apply Qle_trans with (inject_Z (k + Z.of_nat (S n))); [| exact Hmax].
      rewrite <- Zle_Qle. lia. }
    destruct (IH c k Hanim Hidx Hk Hmax') as (IH1 & IH2 & IH3 & IH4).
    cbn zeta. rewrite Nat.iter_succ.
    set (cn := Nat.iter n (next_and_settle env) c) in *.
    assert (Hstep : inject_Z (k + Z.of_nat n) + 1 == inject_Z (k + Z.of_nat (S n))).
    { replace (k + Z.of_nat (S n))%Z with ((k + Z.of_nat n) + 1)%Z by lia.
      rewrite (inject_Z_plus (k + Z.of_nat n) 1). reflexivity. }
    destruct (next_and_settle_advances cn) as (H1 & H2 & H3 & H4).
    + exact IH1.
    + rewrite IH2. change 0 with (inject_Z 0). rewrite <- Zle_Qle. lia.
    + rewrite IH2, IH3, Hstep. exact Hmax.
    + repeat split.
      * exact H1.
      * rewrite H2, IH2. exact Hstep.
      * congruence.
      * congruence.
Qed.

(** At the last index [next] does nothing unless [infinite] is set. *)
Lemma next_at_end c :
  isAnimating c = false -> maxIndex c <= currentIndex c ->
  infinite (options c) = false -> next env c = c.
Proof.
  intros Hanim Hend Hinf. unfold next. rewrite Hanim, Hinf.
  apply NumFacts.ltb_false in Hend. rewrite Hend. reflexivity.
Qed.

(** With [infinite] set it goes back to the first slide. *)
Lemma next_wraps c :
  isAnimating c = false -> maxIndex c <= currentIndex c -> 0 < maxIndex c ->
  infinite (options c) = true -> currentIndex (next env c) == 0.
Proof.
  intros Hanim Hend Hpos Hinf. unfold next. rewrite Hanim, Hinf.
  apply NumFacts.ltb_false in Hend as Hb. rewrite Hb.
  rewrite goTo_currentIndex.
  assert (Hkept : goTo_dropped c 0 false = false).
  { unfold goTo_dropped. rewrite Hanim. simpl.
    apply not_true_iff_false. intros H. apply Qeq_bool_iff in H. lra. }
  rewrite Hkept. apply NumFacts.clamp_inside; lra.
Qed.

End Stepping.

(** C4.  Ten slides at four per view give [maxIndex] 6.  From index 0,
    with no transition running, six calls of [next], each made after the
    previous transition has ended, reach index 6.  A seventh call leaves
    the state as it is when [infinite] is off and goes to index 0 when it
    is on. *)
Theorem six_steps_then_boundary (env : Env) (c : Carousel) :
  slides_length c = 10%nat ->
  slidesPerView (getResponsiveOptions (innerWidth env) (options c)) == 4 ->
  currentIndex c == 0 ->
  isAnimating c = false ->
  let c0 := calculateDimensions env c in
  let c6 := Nat.iter 6 (next_and_settle env) c0 in
  maxIndex c0 == 6
  /\ currentIndex c6 == 6
  /\ (infinite (options c) = false -> next env c6 = c6)
  /\ (infinite (options c) = true -> currentIndex (next env c6) == 0).
Proof.
  intros Hcount Hspv Hidx Hanim c0 c6.
  assert (Hmax : maxIndex c0 == 6).
  { unfold c0. rewrite calculateDimensions_maxIndex, Hcount, Hspv. reflexivity. }
  destruct (next_and_settle_iter env 6 c0 0) as (H1 & H2 & H3 & H4).
  - exact Hanim.
  - exact Hidx.
  - lia.
  - rewrite Hmax. by_evaluation.
  - fold c6 in H1, H2, H3, H4.
    assert (Hend : maxIndex c6 <= currentIndex c6).
    { rewrite H3, Hmax, H2. by_evaluation. }
    split; [exact Hmax |]. split; [exact H2 |]. split.
    + intros Hinf. apply next_at_end; [exact H1 | exact Hend |].
      rewrite H4. exact Hinf.
    + intros Hinf. apply next_wraps; [exact H1 | exact Hend | |].
      * rewrite H3, Hmax. reflexivity.
      * rewrite H4. exact Hinf.
Qed.

(** The experiences carousel with ten slides on a desktop. *)
Lemma six_steps_then_boundary_witness :
  let c := constructor_fields (page 10) 10 experiences_options in
  let c6 := Nat.iter 6 (next_and_settle desktop) (calculateDimensions desktop c) in
  (slides_length c = 10%nat
   /\ slidesPerView (getResponsiveOptions (innerWidth desktop) (options c)) == 4
   /\ currentIndex c == 0
   /\ isAnimating c = false)
  /\ currentIndex c6 == 6
  /\ next desktop c6 = c6.
Proof.
  intros c c6.
  assert (H1 : slides_length c = 10%nat) by reflexivity.
  assert (H2 : slidesPerView (getResponsiveOptions (innerWidth desktop) (options c)) == 4)
    by by_evaluation.
  assert (H3 : currentIndex c == 0) by reflexivity.
  assert (H4 : isAnimating c = false) by reflexivity.
  split; [auto |].
  destruct (six_steps_then_boundary desktop c H1 H2 H3 H4) as (_ & Hsix & Hstay & _).
  split; [exact Hsix |]. apply Hstay. reflexivity.
Defined.

(** ** Breakpoints *)

#[local] Instance descending_total : Total descending.
Proof. intros a b. unfold descending. lia. Qed.

#[local] Instance descending_trans : Transitive descending.
Proof. intros a b c. unfold descending. lia. Qed.

Lemma sortedBreakpoints_sorted o : StronglySorted descending (sortedBreakpoints o).
Proof. apply StronglySorted_merge_sort; apply _. Qed.

Lemma sortedBreakpoints_NoDup o : NoDup (sortedBreakpoints o).
Proof.
  unfold sortedBreakpoints. rewrite merge_sort_Permutation.
  apply NoDup_fst_map_to_list.
Qed.

Lemma elem_of_sortedBreakpoints o k :
  k ∈ sortedBreakpoints o <-> is_Some (breakpoints o !! k).
Proof.
  unfold sortedBreakpoints. rewrite merge_sort_Permutation, list_elem_of_fmap.
  split.
  - intros [[k' p] [-> H]]. apply elem_of_map_to_list in H. exists p. exact H.
  - intros [p H]. exists (k, p). split; [reflexivity |].
    apply elem_of_map_to_list. exact H.
Qed.

Lemma StronglySorted_keep {A} (R : relation A) (P : A -> Prop)
    `{forall x, Decision (P x)} (l : list A) :
  StronglySorted R l -> StronglySorted R (filter P l).
Proof.
  induction 1 as [| x l Hl IH Hx]; [constructor |].
  rewrite filter_cons. case_decide; [| exact IH].
  constructor; [exact IH |].
  apply Forall_forall. intros y Hy.
  apply list_elem_of_filter in Hy as [_ Hy].
  rewrite Forall_forall in Hx. apply Hx, Hy.
Qed.

Section Loop.

Variables (windowWidth : Z) (source : Options).

Let body := apply_breakpoint windowWidth source.

(** The loop skips the breakpoints below the window width. *)
Lemma loop_filter keys acc :
  fold_left body keys acc =
  fold_left (fun acc k => spread acc (default no_overrides (breakpoints source !! k)))
    (filter (fun k => (windowWidth ≤ k)%Z) keys) acc.
Proof.
  revert acc. induction keys as [| k keys IH]; intros acc; [reflexivity |].
  rewrite filter_cons. cbn [fold_left]. rewrite IH.
  unfold body, apply_breakpoint.
  case_bool_decide; case_decide; try contradiction; [| reflexivity].
  cbn [fold_left]. destruct (breakpoints source !! k) as [p |]; [reflexivity |].
  destruct acc; reflexivity.
Qed.

(** One field of the options, read by [get], and set by a breakpoint when
    [pick] finds it there. *)
Context {A : Type} (get : Options -> A) (pick : Overrides -> option A).

Hypothesis get_spread : forall o p, get (spread o p) = default (get o) (pick p).

Lemma loop_unset keys acc :
  (forall k, k ∈ keys -> ~ sets_field pick windowWidth source k) ->
  get (fold_left body keys acc) = get acc.
Proof.
  revert acc. induction keys as [| k keys IH]; intros acc Hnone; [reflexivity |].
  cbn [fold_left]. rewrite IH by (intros k' Hk'; apply Hnone; right; exact Hk').
  unfold body, apply_breakpoint.
  case_bool_decide as Hw; [| reflexivity].
  destruct (breakpoints source !! k) as [p |] eqn:Hp; [| reflexivity].
  rewrite get_spread.
  destruct (pick p) as [v |] eqn:Hv; [| reflexivity].
  exfalso. apply (Hnone k); [left |].
  split; [exact Hw |]. exists p. rewrite Hv. eauto.
Qed.

Lemma loop_last_wins keys1 k keys2 acc p v :
  (windowWidth ≤ k)%Z ->
  breakpoints source !! k = Some p ->
  pick p = Some v ->
  (forall k', k' ∈ keys2 -> ~ sets_field pick windowWidth source k') ->
  get (fold_left body (keys1 ++ k :: keys2) acc) = v.
Proof.
  intros Hw Hp Hv Hnone.
  rewrite fold_left_app. cbn [fold_left].
  rewrite loop_unset by exact Hnone.
  unfold body at 1, apply_breakpoint.
  rewrite bool_decide_eq_true_2 by exact Hw.
  rewrite Hp, get_spread, Hv. reflexivity.
Qed.

(** The smallest breakpoint that applies and sets the field decides it. *)
Lemma effective_smallest k p v :
  (windowWidth ≤ k)%Z ->
  breakpoints source !! k = Some p ->
  pick p = Some v ->
  (forall k', (k' < k)%Z -> ~ sets_field pick windowWidth source k') ->
  get (getResponsiveOptions windowWidth source) = v.
Proof.
  intros Hw Hp Hv Hsmaller.
  assert (Hin : k ∈ sortedBreakpoints source)
    by (apply elem_of_sortedBreakpoints; eauto).
  destruct (list_elem_of_split _ _ Hin) as (keys1 & keys2 & Hsplit).
  unfold getResponsiveOptions. fold body. rewrite Hsplit.
  apply (loop_last_wins keys1 k keys2 source p v Hw Hp Hv).
  intros k' Hk'. apply Hsmaller.
  pose proof (sortedBreakpoints_sorted source) as Hsorted.
  pose proof (sortedBreakpoints_NoDup source) as Hnodup.
  rewrite Hsplit in Hsorted, Hnodup.
  apply StronglySorted_app_1_r, StronglySorted_cons in Hsorted as [Hle _].
  apply NoDup_app in Hnodup as (_ & _ & Hnodup).
  apply NoDup_cons in Hnodup as [Hnotin _].
  rewrite Forall_forall in Hle. specialize (Hle k' Hk'). unfold descending in Hle.
  assert (k' <> k) by (intros ->; contradiction).
  lia.
Qed.

(** A field no applicable breakpoint sets keeps its base value. *)
Lemma effective_base :
  (forall k, ~ sets_field pick windowWidth source k) ->
  get (getResponsiveOptions windowWidth source) = get source.
Proof.
  intros Hnone. unfold getResponsiveOptions. fold body.
  apply loop_unset. intros k _. apply Hnone.
Qed.

End Loop.

(** C6.  The effective options at a window width are the base options
    overlaid by the breakpoints whose key is at least that width, taken in
    descending order of key; so for each field of the options (read by
    [get], set in a breakpoint when [pick] finds it) the smallest such
    breakpoint that sets the field decides it, and a field none of them
    sets keeps its base value.  With four slides per view and breakpoints
    1200: 3 slides and 600: 1.2 slides with a gap of 16, a width of 700
    gives 3 slides (and the base gap) and a width of 500 gives 1.2 slides
    with a gap of 16. *)
Theorem responsive_resolution (windowWidth : Z) (o : Options) :
  (exists keys,
      StronglySorted descending keys
      /\ NoDup keys
      /\ (forall k, k ∈ keys <-> is_Some (breakpoints o !! k) /\ (windowWidth ≤ k)%Z)
      /\ getResponsiveOptions windowWidth o = overlay o keys)
  /\ (forall (A : Type) (get : Options -> A) (pick : Overrides -> option A),
        (forall o' p, get (spread o' p) = default (get o') (pick p)) ->
        (forall k p v,
            (windowWidth ≤ k)%Z ->
            breakpoints o !! k = Some p ->
            pick p = Some v ->
            (forall k', (k' < k)%Z -> ~ sets_field pick windowWidth o k') ->
            get (getResponsiveOptions windowWidth o) = v)
        /\ ((forall k, ~ sets_field pick windowWidth o k) ->
            get (getResponsiveOptions windowWidth o) = get o))
  /\ slidesPerView (getResponsiveOptions 700 two_breakpoints) == 3
  /\ gap (getResponsiveOptions 700 two_breakpoints) == 24
  /\ slidesPerView (getResponsiveOptions 500 two_breakpoints) == 12 # 10
  /\ gap (getResponsiveOptions 500 two_breakpoints) == 16.
Proof.
  split; [| split].
  - exists (filter (fun k => (windowWidth ≤ k)%Z) (sortedBreakpoints o)).
    split; [apply StronglySorted_keep, sortedBreakpoints_sorted |].
    split; [apply NoDup_filter, sortedBreakpoints_NoDup |].
    split.
    + intros k. rewrite list_elem_of_filter, elem_of_sortedBreakpoints. tauto.
    + apply loop_filter.
  - intros A get pick Hspread. split.
    + intros k p v. apply effective_smallest, Hspread.
    + apply effective_base, Hspread.
  - repeat split; by_evaluation.
Qed.

Lemma experiences_breakpoints_keys k p :
  breakpoints (constructor_options experiences_options) !! k = Some p ->
  k = 1200%Z \/ k = 900%Z \/ k = 600%Z.
Proof.
  cbv [constructor_options experiences_options breakpoints user_breakpoints default id].
  rewrite !lookup_insert_Some, lookup_empty. intuition congruence.
Qed.

(** The experiences carousel at 700px: the breakpoint at 900px is the
    smallest that applies, and it sets two slides per view. *)
Lemma responsive_resolution_witness :
  slidesPerView (getResponsiveOptions 700 (constructor_options experiences_options)) = 2.
Proof.
  destruct (responsive_resolution 700 (constructor_options experiences_options))
    as (_ & H & _).
  destruct (H Q slidesPerView ov_slidesPerView (fun _ _ => eq_refl)) as [Hsmallest _].
  apply (Hsmallest 900%Z (mkOverrides (Some 2) None None None None)).
  - lia.
  - reflexivity.
  - reflexivity.
  - intros k' Hlt [Hge (p & Hp & _)].
    apply experiences_breakpoints_keys in Hp. lia.
Defined.

(** ** What the other methods leave alone *)

Lemma set_timeouts_autoplayInterval a d c :
  autoplayInterval (set_timeouts a d c) = autoplayInterval c.
Proof. reflexivity. Qed.

Ltac frame_by_cases :=
  intros;
  cbv [prev next animationTimeout resizeTimeout handleMouseDown handleMouseMove
       handleMouseUp dragTimeout autoplayTick];
  cbv zeta;
  repeat first
    [ rewrite set_timeouts_autoplayInterval
    | rewrite goTo_autoplayInterval
    | rewrite goTo_maxIndex
    | rewrite goTo_options
    | case_match ];
  try reflexivity.

Lemma prev_autoplayInterval env c : autoplayInterval (prev env c) = autoplayInterval c.
Proof. frame_by_cases. Qed.

Lemma next_autoplayInterval env c : autoplayInterval (next env c) = autoplayInterval c.
Proof. frame_by_cases. Qed.

Lemma animationTimeout_autoplayInterval c :
  autoplayInterval (animationTimeout c) = autoplayInterval c.
Proof. frame_by_cases. Qed.

Lemma resizeTimeout_autoplayInterval env c :
  autoplayInterval (resizeTimeout env c) = autoplayInterval c.
Proof. frame_by_cases. Qed.

Lemma handleMouseDown_autoplayInterval c x :
  autoplayInterval (handleMouseDown c x) = autoplayInterval c.
Proof. frame_by_cases. Qed.

Lemma handleMouseMove_autoplayInterval env c x :
  autoplayInterval (handleMouseMove env c x) = autoplayInterval c.
Proof. frame_by_cases. Qed.

Lemma handleMouseUp_autoplayInterval env c x :
  autoplayInterval (handleMouseUp env c x) = autoplayInterval c.
Proof. frame_by_cases. Qed.

Lemma dragTimeout_autoplayInterval c :
  autoplayInterval (dragTimeout c) = autoplayInterval c.
Proof. frame_by_cases. Qed.

Lemma autoplayTick_autoplayInterval env c :
  autoplayInterval (autoplayTick env c) = autoplayInterval c.
Proof. frame_by_cases. Qed.





(** ** The autoplay timer *)

Lemma own_timers_size c : size (own_timers c) ≤ 1.
Proof.
  unfold own_timers. destruct (autoplayInterval c).
  - rewrite size_singleton. lia.
  - rewrite size_empty. lia.
Qed.

Lemma autoplay_inv_frame others t c c' :
  autoplayInterval c' = autoplayInterval c ->
  autoplay_inv others (t, c) -> autoplay_inv others (t, c').
Proof.
  unfold autoplay_inv, own_timers. cbn [fst snd]. intros ->. auto.
Qed.

Lemma startAutoplay_running t c :
  is_Some (autoplayInterval c) -> startAutoplay t c = (t, c).
Proof. intros [id H]. unfold startAutoplay. rewrite H. reflexivity. Qed.

Lemma startAutoplay_holds_timer t c :
  is_Some (autoplayInterval (snd (startAutoplay t c))).
Proof.
  unfold startAutoplay. destruct (autoplayInterval c) eqn:H; cbn.
  - rewrite H. eauto.
  - eauto.
Qed.

Lemma startAutoplay_inv others t c :
  autoplay_inv others (t, c) -> autoplay_inv others (startAutoplay t c).
Proof.
  intros Hinv. unfold startAutoplay.
  destruct (autoplayInterval c) as [id |] eqn:Hid; [exact Hinv |].
  destruct Hinv as (Hwf & Hlive & Hdisj).
  unfold own_timers in Hlive, Hdisj. cbn [fst snd] in *. rewrite Hid in Hlive, Hdisj.
  assert (Hfresh : next_id t ∉ live t).
  { intros Hin. apply Hwf in Hin. lia. }
  unfold autoplay_inv, own_timers, timers_wf. cbn.
  split; [| split].
  - intros id Hin. apply elem_of_union in Hin as [Hin | Hin].
    + apply elem_of_singleton in Hin. lia.
    + apply Hwf in Hin. lia.
  - rewrite Hlive. set_solver.
  - rewrite Hlive in Hfresh. set_solver.
Qed.

Lemma stopAutoplay_inv others t c :
  autoplay_inv others (t, c) -> autoplay_inv others (stopAutoplay t c).
Proof.
  intros Hinv. unfold stopAutoplay.
  destruct (autoplayInterval c) as [id |] eqn:Hid; [| exact Hinv].
  destruct Hinv as (Hwf & Hlive & Hdisj).
  unfold own_timers in Hlive, Hdisj. cbn [fst snd] in *. rewrite Hid in Hlive, Hdisj.
  unfold autoplay_inv, own_timers, timers_wf. cbn.
  split; [| split].
  - intros id' Hin. apply elem_of_difference in Hin as [Hin _]. apply Hwf, Hin.
  - rewrite Hlive. set_solver.
  - set_solver.
Qed.

Lemma stopAutoplay_clears t c : autoplayInterval (snd (stopAutoplay t c)) = None.
Proof.
  unfold stopAutoplay. destruct (autoplayInterval c) eqn:H; [reflexivity | exact H].
Qed.

Lemma step_inv others env ev w :
  autoplay_inv others w -> autoplay_inv others (step env ev w).
Proof.
  destruct w as [t c]. intros Hinv.
  destruct ev; cbn [step];
    try (eapply autoplay_inv_frame; [| exact Hinv];
         auto using prev_autoplayInterval, next_autoplayInterval,
           goTo_autoplayInterval, animationTimeout_autoplayInterval,
           resizeTimeout_autoplayInterval, handleMouseDown_autoplayInterval,
           handleMouseMove_autoplayInterval, handleMouseUp_autoplayInterval,
           dragTimeout_autoplayInterval; fail).
  - case_match; [apply stopAutoplay_inv |]; exact Hinv.
  - case_match; [apply startAutoplay_inv |]; exact Hinv.
  - repeat case_match; try exact Hinv.
    eapply autoplay_inv_frame; [apply autoplayTick_autoplayInterval | exact Hinv].
  - apply startAutoplay_inv, Hinv.
  - apply stopAutoplay_inv, Hinv.
  - apply stopAutoplay_inv, Hinv.
Qed.

Lemma run_inv others evs : forall w,
  autoplay_inv others w -> autoplay_inv others (run evs w).
Proof.
  induction evs as [| [env ev] evs IH]; intros w Hinv; [exact Hinv |].
  cbn. apply IH, step_inv, Hinv.
Qed.

Lemma init_inv env t c :
  timers_wf t -> autoplayInterval c = None ->
  autoplay_inv (live t) (init env t c).
Proof.
  intros Hwf Hnone.
  assert (Hinv : autoplay_inv (live t)
                   (t, updateProgress (updateControls (calculateDimensions env c)))).
  { unfold autoplay_inv, own_timers. cbn [fst snd].
    replace (autoplayInterval (updateProgress (updateControls (calculateDimensions env c))))
      with (autoplayInterval c)
      by (unfold updateProgress; case_match; reflexivity).
    rewrite Hnone. split; [exact Hwf |]. split; set_solver. }
  unfold init. cbv zeta. case_match; [apply startAutoplay_inv |]; exact Hinv.
Qed.

Lemma new_DMCCarousel_inv env t element user w :
  timers_wf t ->
  new_DMCCarousel env t element user = Some w ->
  autoplay_inv (live t) w.
Proof.
  intros Hwf Hnew. unfold new_DMCCarousel in Hnew.
  destruct element as [container |]; [| discriminate].
  destruct (track_children container) as [[| n] |]; try discriminate.
  injection Hnew as <-. apply init_inv; [exact Hwf | reflexivity].
Qed.

(** C9.  [startAutoplay] called on an instance that holds a timer changes
    nothing, and calling it twice is the same as calling it once.  After
    construction and any sequence of events, the timers the window has on
    top of those it had before the instance was built are exactly the one
    the instance holds, so never more than one; and [stopAutoplay] leaves
    the instance without a timer and the window with its earlier timers
    only. *)
Theorem autoplay_single_timer (env : Env) (t : Timers) (element : option Container)
    (user : UserOptions) (w : Timers * Carousel) (evs : list (Env * Event)) :
  timers_wf t ->
  new_DMCCarousel env t element user = Some w ->
  let w' := run evs w in
  let started := startAutoplay (fst w') (snd w') in
  let stopped := stopAutoplay (fst w') (snd w') in
  (is_Some (autoplayInterval (snd w')) -> started = w')
  /\ startAutoplay (fst started) (snd started) = started
  /\ live (fst w') ∖ live t = own_timers (snd w')
  /\ size (live (fst w') ∖ live t) ≤ 1
  /\ size (live (fst started) ∖ live t) = 1%nat
  /\ autoplayInterval (snd stopped) = None
  /\ live (fst stopped) = live t.
Proof.
  intros Hwf Hnew w' started stopped.
  assert (Hinv : autoplay_inv (live t) w')
    by (apply run_inv, (new_DMCCarousel_inv env t element user); assumption).
  assert (Hown : forall x, autoplay_inv (live t) x ->
                 live (fst x) ∖ live t = own_timers (snd x)).
  { intros x (_ & Hlive & Hdisj). rewrite Hlive. set_solver. }
  assert (Hstarted : autoplay_inv (live t) started).
  { unfold started. destruct w'. apply startAutoplay_inv, Hinv. }
  assert (Hstopped : autoplay_inv (live t) stopped).
  { unfold stopped. destruct w'. apply stopAutoplay_inv, Hinv. }
  split; [| split; [| split; [| split; [| split; [| split]]]]].
  - intros H. unfold started. rewrite startAutoplay_running by exact H.
    destruct w'; reflexivity.
  - rewrite startAutoplay_running; [destruct started; reflexivity |].
    apply startAutoplay_holds_timer.
  - apply Hown, Hinv.
  - rewrite (Hown _ Hinv). apply own_timers_size.
  - rewrite (Hown _ Hstarted). unfold own_timers.
    destruct (startAutoplay_holds_timer (fst w') (snd w')) as [id Hid].
    fold started in Hid. rewrite Hid. apply size_singleton.
  - apply stopAutoplay_clears.
  - pose proof (Hown _ Hstopped) as H.
    unfold own_timers in H. fold stopped in H.
    assert (Hnone : autoplayInterval (snd stopped) = None) by apply stopAutoplay_clears.
    rewrite Hnone in H.
    destruct Hstopped as (_ & Hlive & _). rewrite Hlive.
    unfold own_timers. rewrite Hnone. set_solver.
Qed.

(** An autoplaying carousel: the pointer leaves the container twice in a
    row, then [startAutoplay] is called again; one timer is live. *)
Lemma autoplay_single_timer_witness :
  exists w,
    new_DMCCarousel desktop no_timers (Some (page 10)) autoplaying_options = Some w
    /\ timers_wf no_timers
    /\ let w' := run [(desktop, MouseLeave); (desktop, MouseLeave); (desktop, CallStartAutoplay)] w in
       size (live (fst w') ∖ live no_timers) ≤ 1
       /\ is_Some (autoplayInterval (snd w')).
Proof.
  eexists. split; [reflexivity |].
  assert (Hwf : timers_wf no_timers) by (intros id Hid; cbn in Hid; set_solver).
  split; [exact Hwf |]. cbv zeta. split.
  - eapply (autoplay_single_timer desktop no_timers (Some (page 10)) autoplaying_options);
      [exact Hwf | reflexivity].
  - vm_compute. eauto.
Defined.

(** ** A carousel that fits in one view *)







(** What [init] leaves of the dimensions it computed. *)
Lemma init_fields env t c :
  let c' := snd (init env t c) in
  options c' = options c
  /\ slides_length c' = slides_length c
  /\ currentIndex c' = currentIndex c
  /\ maxIndex c' = maxIndex (calculateDimensions env c).
Proof.
  unfold init, startAutoplay, updateProgress, updateControls. cbv zeta.
  repeat case_match; cbn; auto.
Qed.



(** * Further properties of the controller *)

(** ** The autoplay callback *)

(** X1.  The callback of the autoplay interval does, in every state, what
    [next] does: it advances by one slide, wraps to the first slide at the
    end when [infinite] is set, and is dropped while a transition runs. *)
Theorem autoplayTick_is_next (env : Env) (c : Carousel) :
  autoplayTick env c = next env c.
Proof.
  unfold autoplayTick.
  destruct (Qle_bool (maxIndex c) (currentIndex c)) eqn:Hend; [| reflexivity].
  unfold next, Num.ltb. rewrite Hend. cbn [negb].
  destruct (isAnimating c) eqn:Hanim; [| reflexivity].
  destruct (infinite (options c)); [| reflexivity].
  apply goTo_dropped_eq, goTo_dropped_animating, Hanim.
Qed.

(** ** Buttons *)

Lemma updateControls_prevBtn c b :
  prevBtn (updateControls c) = Some b ->
  b = negb (infinite (options c)) && Qeq_bool (currentIndex c) 0.
Proof.
  unfold updateControls. cbn. destruct (prevBtn c); [| discriminate].
  intros H. injection H as <-. reflexivity.
Qed.






(** ** Resizing *)

Lemma calculateDimensions_maxIndex_nonneg env c :
  0 <= maxIndex (calculateDimensions env c).
Proof. rewrite calculateDimensions_maxIndex. apply Q.le_max_l. Qed.

(** X4.  The resize callback of the class measures again and then calls an
    unforced [goTo]: at rest, a state whose index is not negative ends with
    its index in range for the new [maxIndex]; while a transition runs the
    call is dropped, so only the dimensions change and the index stays
    where it was, also when it is beyond the new [maxIndex]. *)
Theorem resize_reclamps_at_rest (env : Env) (c : Carousel) :
  (isAnimating c = false -> 0 <= currentIndex c ->
   index_in_range (resizeTimeout env c))
  /\ (isAnimating c = true -> resizeTimeout env c = calculateDimensions env c).
Proof.
  split.
  - intros Hanim Hlo. unfold resizeTimeout. cbv zeta.
    set (c1 := calculateDimensions env c).
    assert (Hmax : 0 <= maxIndex c1) by apply calculateDimensions_maxIndex_nonneg.
    change (currentIndex c1) with (currentIndex c).
    unfold index_in_range. rewrite goTo_currentIndex, goTo_maxIndex.
    change (currentIndex c1) with (currentIndex c).
    destruct (goTo_dropped c1 (Qmin (currentIndex c) (maxIndex c1)) false) eqn:Hd.
    + split; [exact Hlo |].
      unfold goTo_dropped in Hd. change (isAnimating c1) with (isAnimating c) in Hd.
      change (currentIndex c1) with (currentIndex c) in Hd.
      rewrite Hanim in Hd. cbn in Hd. apply Qeq_bool_iff in Hd.
      rewrite <- Hd. apply Q.le_min_r.
    + split; [apply NumFacts.clamp_lower | apply NumFacts.clamp_upper, Hmax].
  - intros Hanim. unfold resizeTimeout. cbv zeta.
    apply goTo_dropped_eq, goTo_dropped_animating. exact Hanim.
Qed.

(** The experiences carousel at index 6 on a desktop, then measured on a
    phone where it is at rest: the index is in range. *)
Lemma resize_reclamps_at_rest_witness :
  let c := Nat.iter 6 (next_and_settle desktop)
             (calculateDimensions desktop
                (constructor_fields (page 10) 10 experiences_options)) in
  (isAnimating c = false /\ 0 <= currentIndex c)
  /\ index_in_range (resizeTimeout phone c).
Proof.
  intros c.
  assert (H1 : isAnimating c = false) by by_evaluation.
  assert (H2 : 0 <= currentIndex c) by by_evaluation.
  split; [auto |].
  apply (resize_reclamps_at_rest phone c); assumption.
Defined.

(** ** The transition lock *)



(** X6.  Every timeout of [goTo] clears [isAnimating], whichever call
    scheduled it.  When a forced [goTo] interrupts a transition, the
    timeout of the interrupted transition releases the lock while the
    timeout of the new one is still pending. *)
Theorem interrupted_transition_unlocks_early (env : Env) (c : Carousel)
    (first second : Q) (force : bool) :
  goTo_dropped c first force = false ->
  let c' := animationTimeout (goTo env (goTo env c first force) second true) in
  isAnimating c' = false
  /\ animation_timeouts c' = S (animation_timeouts c)
  /\ currentIndex c' = Num.clamp 0 (maxIndex c) second.
Proof.
  intros Hkept c'. unfold c', animationTimeout.
  rewrite goTo_animation_timeouts, goTo_forced_kept.
  cbn. rewrite goTo_currentIndex, goTo_forced_kept, goTo_maxIndex.
  rewrite goTo_animation_timeouts, Hkept. auto.
Qed.

(** The experiences carousel: [next] starts a transition, a forced [goTo]
    to index 4 interrupts it, and the first timeout fires. *)
Lemma interrupted_transition_unlocks_early_witness :
  let c := calculateDimensions desktop
             (constructor_fields (page 10) 10 experiences_options) in
  let c' := animationTimeout (goTo desktop (goTo desktop c 1 false) 4 true) in
  goTo_dropped c 1 false = false
  /\ isAnimating c' = false
  /\ animation_timeouts c' = 1%nat.
Proof.
  intros c c'.
  assert (H : goTo_dropped c 1 false = false) by by_evaluation.
  split; [exact H |].
  destruct (interrupted_transition_unlocks_early desktop c 1 4 false H) as (H1 & H2 & _).
  split; [exact H1 | exact H2].
Defined.

(** ** [prev] and [next] together *)

Section BackAndForth.

Variables (env : Env) (c : Carousel).

Hypothesis at_rest : isAnimating c = false.

Lemma prev_settled_steps_back :
  1 <= currentIndex c ->
  currentIndex c <= maxIndex c ->
  let c' := animationTimeout (prev env c) in
  isAnimating c' = false
  /\ currentIndex c' == currentIndex c - 1
  /\ maxIndex c' = maxIndex c.
Proof.
  intros Hlo Hhi c'. unfold c', prev. rewrite at_rest.
  assert (Hb : Num.ltb 0 (currentIndex c) = true) by (apply NumFacts.ltb_true; lra).
  rewrite Hb.
  assert (Hkept : goTo_dropped c (currentIndex c - 1) false = false).
  { unfold goTo_dropped. rewrite at_rest. cbn.
    apply not_true_iff_false. intros E. apply Qeq_bool_iff in E. lra. }
  destruct (animationTimeout_after_goTo env c (currentIndex c - 1) false Hkept)
    as (H1 & H2 & H3 & _).
  repeat split; try assumption.
  rewrite H2. apply NumFacts.clamp_inside; lra.
Qed.

End BackAndForth.

(** X7.  At rest and in range, [next] followed by [prev] (each after the
    transition of the one before has ended) comes back to the same index
    when a whole step fits before [maxIndex], and so does [prev] followed
    by [next] when a whole step fits after 0. *)
Theorem next_and_prev_cancel (env : Env) (c : Carousel) :
  isAnimating c = false ->
  (0 <= currentIndex c -> currentIndex c + 1 <= maxIndex c ->
   currentIndex (animationTimeout (prev env (next_and_settle env c))) == currentIndex c)
  /\ (1 <= currentIndex c -> currentIndex c <= maxIndex c ->
      currentIndex (next_and_settle env (animationTimeout (prev env c))) == currentIndex c).
Proof.
  intros Hanim. split; intros Hlo Hhi.
  - destruct (next_and_settle_advances env c Hanim Hlo Hhi) as (H1 & H2 & H3 & _).
    destruct (prev_settled_steps_back env (next_and_settle env c) H1) as (_ & H5 & _).
    + rewrite H2. lra.
    + rewrite H2, H3. exact Hhi.
    + rewrite H5, H2. ring.
  - destruct (prev_settled_steps_back env c Hanim Hlo Hhi) as (H1 & H2 & H3).
    destruct (next_and_settle_advances env (animationTimeout (prev env c)) H1)
      as (_ & H5 & _).
    + rewrite H2. lra.
    + rewrite H2, H3. lra.
    + rewrite H5, H2. ring.
Qed.

(** The experiences carousel as built: forward to index 1 and back. *)
Lemma next_and_prev_cancel_witness :
  let c := calculateDimensions desktop
             (constructor_fields (page 10) 10 experiences_options) in
  (isAnimating c = false /\ 0 <= currentIndex c /\ currentIndex c + 1 <= maxIndex c)
  /\ currentIndex (animationTimeout (prev desktop (next_and_settle desktop c))) == 0.
Proof.
  intros c.
  assert (H1 : isAnimating c = false) by reflexivity.
  assert (H2 : 0 <= currentIndex c) by by_evaluation.
  assert (H3 : currentIndex c + 1 <= maxIndex c) by by_evaluation.
  split; [auto |].
  destruct (next_and_prev_cancel desktop c H1) as [H _].
  rewrite (H H2 H3). reflexivity.
Defined.

(** X8.  At index 0 and at rest, [prev] returns the state as it is when
    [infinite] is off and goes to [maxIndex] when it is on. *)
Theorem prev_at_start (env : Env) (c : Carousel) :
  isAnimating c = false ->
  currentIndex c == 0 ->
  (infinite (options c) = false -> prev env c = c)
  /\ (infinite (options c) = true -> 0 <= maxIndex c ->
      currentIndex (prev env c) == maxIndex c).
Proof.
  intros Hanim Hzero.
  assert (Hb : Num.ltb 0 (currentIndex c) = false)
    by (apply NumFacts.ltb_false; rewrite Hzero; apply Qle_refl).
  split; intros Hinf.
  - unfold prev. rewrite Hanim, Hb, Hinf. reflexivity.
  - intros Hmax. unfold prev. rewrite Hanim, Hb, Hinf.
    rewrite goTo_currentIndex.
    destruct (goTo_dropped c (maxIndex c) false) eqn:Hd.
    + unfold goTo_dropped in Hd. rewrite Hanim in Hd. cbn in Hd.
      apply Qeq_bool_iff in Hd. symmetry. exact Hd.
    + apply NumFacts.clamp_inside; [exact Hmax | apply Qle_refl].
Qed.

(** The autoplaying carousel, which wraps, as built. *)
Lemma prev_at_start_witness :
  let c := calculateDimensions desktop
             (constructor_fields (page 10) 10 autoplaying_options) in
  (isAnimating c = false /\ currentIndex c == 0)
  /\ currentIndex (prev desktop c) == 6.
Proof.
  intros c.
  assert (H1 : isAnimating c = false) by reflexivity.
  assert (H2 : currentIndex c == 0) by reflexivity.
  split; [auto |].
  destruct (prev_at_start desktop c H1 H2) as [_ H].
  rewrite H; by_evaluation.
Defined.

(** ** Rounding *)

Lemma round_zero y : - (1 # 2) <= y -> y < 1 # 2 -> Num.round y = 0%Z.
Proof.
  intros Hlo Hhi. unfold Num.round.
  assert (H0 : (0 <= Qfloor (y + (1 # 2)))%Z).
  { change 0%Z with (Qfloor 0). apply Qfloor_resp_le. lra. }
  assert (H1 : (Qfloor (y + (1 # 2)) < 1)%Z).
  { rewrite Zlt_Qlt. apply Qle_lt_trans with (y + (1 # 2)); [apply Qfloor_le |].
    change (inject_Z 1) with 1. lra. }
  lia.
Qed.

Lemma round_nonneg y : 0 <= y -> (0 <= Num.round y)%Z.
Proof.
  intros H. unfold Num.round. change 0%Z with (Qfloor 0).
  apply Qfloor_resp_le. lra.
Qed.

Lemma round_nonpos y : y <= 0 -> (Num.round y <= 0)%Z.
Proof.
  intros H. unfold Num.round. change 0%Z with (Qfloor (1 # 2)).
  apply Qfloor_resp_le. lra.
Qed.

(** ** Dragging *)

Lemma goTo_dragMoved env c index force :
  dragMoved (goTo env c index force) = dragMoved c.
Proof.
  unfold goTo, updateProgress, updateControls.
  repeat case_match; reflexivity.
Qed.

Lemma goTo_drag_timeouts env c index force :
  drag_timeouts (goTo env c index force) = drag_timeouts c.
Proof.
  unfold goTo, updateProgress, updateControls.
  repeat case_match; reflexivity.
Qed.

Lemma handleMouseMove_dragging env c x :
  isDragging c = true ->
  handleMouseMove env c x =
  set_transform (- currentIndex c * card_width env c + (x - dragStartX c))
    (if Num.ltb 5 (Qabs (x - dragStartX c))
     then set_drag true (dragStartX c) true c else c).
Proof.
  intros H. unfold handleMouseMove, card_width. rewrite H. cbn [negb].
  destruct (Num.ltb 5 (Qabs (x - dragStartX c))); reflexivity.
Qed.

(** X9.  While the mouse is down the track follows the pointer: between
    two moves the translation changes by exactly the distance the pointer
    travelled, and a move changes neither the index nor [maxIndex] nor
    [isAnimating].  [dragMoved] is set by a move more than 5px away from
    where the mouse went down and is not reset by later moves. *)
Theorem drag_follows_pointer (env : Env) (c : Carousel) (x1 x2 : Q) :
  isDragging c = true ->
  let c1 := handleMouseMove env c x1 in
  let c2 := handleMouseMove env c1 x2 in
  (exists a b,
      track_transform c1 = Some a /\ track_transform c2 = Some b
      /\ b - a == x2 - x1)
  /\ currentIndex c2 = currentIndex c
  /\ maxIndex c2 = maxIndex c
  /\ isAnimating c2 = isAnimating c
  /\ dragMoved c1 = dragMoved c || Num.ltb 5 (Qabs (x1 - dragStartX c))
  /\ dragMoved c2 = dragMoved c1 || Num.ltb 5 (Qabs (x2 - dragStartX c)).
Proof.
  intros Hdrag c1 c2.
  assert (E1 : c1 = handleMouseMove env c x1) by reflexivity.
  rewrite (handleMouseMove_dragging env c x1 Hdrag) in E1.
  assert (Hdrag1 : isDragging c1 = true).
  { rewrite E1. destruct (Num.ltb 5 (Qabs (x1 - dragStartX c))); [reflexivity | exact Hdrag]. }
  assert (Hstart : dragStartX c1 = dragStartX c)
    by (rewrite E1; destruct (Num.ltb 5 (Qabs (x1 - dragStartX c))); reflexivity).
  assert (Hidx : currentIndex c1 = currentIndex c)
    by (rewrite E1; destruct (Num.ltb 5 (Qabs (x1 - dragStartX c))); reflexivity).
  assert (Hcw : card_width env c1 = card_width env c)
    by (rewrite E1; destruct (Num.ltb 5 (Qabs (x1 - dragStartX c))); reflexivity).
  assert (E2 : c2 = handleMouseMove env c1 x2) by reflexivity.
  rewrite (handleMouseMove_dragging env c1 x2 Hdrag1), Hstart, Hidx, Hcw in E2.
  split.
  - exists (- currentIndex c * card_width env c + (x1 - dragStartX c)),
           (- currentIndex c * card_width env c + (x2 - dragStartX c)).
    split; [rewrite E1; reflexivity |].
    split; [rewrite E2; reflexivity | ring].
  - rewrite E2, E1.
    destruct (Num.ltb 5 (Qabs (x2 - dragStartX c)));
      destruct (Num.ltb 5 (Qabs (x1 - dragStartX c)));
      cbn; destruct (dragMoved c); repeat split; reflexivity.
Qed.

(** The experiences carousel as built, pressed at x = 200 and moved to 203
    and then to 260. *)
Lemma drag_follows_pointer_witness :
  let c := handleMouseDown
             (calculateDimensions narrow
                (constructor_fields (page 10) 10 experiences_options)) 200 in
  let c1 := handleMouseMove narrow c 203 in
  let c2 := handleMouseMove narrow c1 260 in
  isDragging c = true
  /\ dragMoved c1 = false
  /\ dragMoved c2 = true
  /\ currentIndex c2 = currentIndex c.
Proof.
  intros c c1 c2.
  assert (H : isDragging c = true) by reflexivity.
  split; [exact H |].
  destruct (drag_follows_pointer narrow c 203 260 H) as (_ & Hidx & _ & _ & Hm1 & Hm2).
  unfold c2, c1.
  split; [rewrite Hm1; by_evaluation |].
  split; [rewrite Hm2; by_evaluation | exact Hidx].
Defined.

Lemma handleMouseUp_dragMoved env c x :
  isDragging c = true ->
  dragMoved (handleMouseUp env c x) = dragMoved c
  /\ drag_timeouts (handleMouseUp env c x) =
     if dragMoved c then S (drag_timeouts c) else drag_timeouts c.
Proof.
  intros H. rewrite (handleMouseUp_goTo env c x H). cbv zeta.
  rewrite goTo_dragMoved. cbn [dragMoved set_transition set_drag].
  destruct (dragMoved c) eqn:Hm.
  - cbn. rewrite goTo_dragMoved, goTo_drag_timeouts. cbn. auto.
  - rewrite goTo_dragMoved, goTo_drag_timeouts. cbn. auto.
Qed.

Lemma handleMouseUp_index env c x :
  isDragging c = true ->
  currentIndex (handleMouseUp env c x) ==
  Num.clamp 0 (maxIndex c)
    (currentIndex c - inject_Z (Num.round ((x - dragStartX c) / card_width env c))).
Proof. intros H. apply handleMouseUp_currentIndex, H. Qed.

(** X10.  A drag shorter than half a card snaps back: with a positive card
    width and the index in range, releasing the mouse less than half a
    card width away from where it went down (to the right, or up to half a
    card to the left) leaves the index where it was. *)
Theorem short_drag_snaps_back (env : Env) (c : Carousel) (pageX : Q) :
  isDragging c = true ->
  index_in_range c ->
  0 < card_width env c ->
  - card_width env c <= 2 * (pageX - dragStartX c) ->
  2 * (pageX - dragStartX c) < card_width env c ->
  currentIndex (handleMouseUp env c pageX) == currentIndex c.
Proof.
  intros Hdrag [Hlo Hhi] Hcw Hleft Hright.
  rewrite (handleMouseUp_index env c pageX Hdrag).
  rewrite round_zero.
  - change (inject_Z 0) with 0.
    transitivity (currentIndex c - 0); [apply NumFacts.clamp_inside; lra | ring].
  - apply Qle_shift_div_l; [exact Hcw | lra].
  - apply Qlt_shift_div_r; [exact Hcw | lra].
Qed.

(** The experiences carousel at index 2 with cards of 100px, dragged 40px
    to the right. *)
Lemma short_drag_snaps_back_witness :
  let c0 := calculateDimensions narrow (constructor_fields (page 10) 10 experiences_options) in
  let c := handleMouseDown (next_and_settle narrow (next_and_settle narrow c0)) 200 in
  (isDragging c = true /\ index_in_range c /\ 0 < card_width narrow c)
  /\ currentIndex (handleMouseUp narrow c 240) == 2.
Proof.
  intros c0 c.
  assert (H1 : isDragging c = true) by reflexivity.
  assert (H2 : index_in_range c) by (split; by_evaluation).
  assert (H3 : 0 < card_width narrow c) by by_evaluation.
  split; [auto |].
  rewrite (short_drag_snaps_back narrow c 240 H1 H2 H3); by_evaluation.
Defined.

(** X11.  A drag never moves the carousel against its direction: with a
    positive card width and the index in range, releasing to the right of
    where the mouse went down does not increase the index and releasing to
    the left does not decrease it. *)
Theorem drag_direction (env : Env) (c : Carousel) (pageX : Q) :
  isDragging c = true ->
  index_in_range c ->
  0 < card_width env c ->
  (dragStartX c <= pageX -> currentIndex (handleMouseUp env c pageX) <= currentIndex c)
  /\ (pageX <= dragStartX c -> currentIndex c <= currentIndex (handleMouseUp env c pageX)).
Proof.
  intros Hdrag [Hlo Hhi] Hcw.
  pose proof (handleMouseUp_index env c pageX Hdrag) as Hidx.
  set (y := (pageX - dragStartX c) / card_width env c) in *.
  split; intros Hdir; rewrite Hidx; unfold Num.clamp.
  - assert (Hy : 0 <= y) by (apply Qle_shift_div_l; [exact Hcw | lra]).
    apply round_nonneg in Hy. rewrite Zle_Qle in Hy. change (inject_Z 0) with 0 in Hy.
    apply Q.max_lub; [exact Hlo |].
    apply Qle_trans with (currentIndex c - inject_Z (Num.round y));
      [apply Q.le_min_l | lra].
  - assert (Hy : y <= 0) by (apply Qle_shift_div_r; [exact Hcw | lra]).
    apply round_nonpos in Hy. rewrite Zle_Qle in Hy. change (inject_Z 0) with 0 in Hy.
    apply Qle_trans with (Qmin (currentIndex c - inject_Z (Num.round y)) (maxIndex c));
      [| apply Q.le_max_r].
    apply Q.min_glb; lra.
Qed.

(** The experiences carousel at index 2 with cards of 100px, dragged 260px
    to the left: it moves forward. *)
Lemma drag_direction_witness :
  let c0 := calculateDimensions narrow (constructor_fields (page 10) 10 experiences_options) in
  let c := handleMouseDown (next_and_settle narrow (next_and_settle narrow c0)) 300 in
  (isDragging c = true /\ index_in_range c /\ 0 < card_width narrow c
   /\ 40 <= dragStartX c)
  /\ currentIndex c <= currentIndex (handleMouseUp narrow c 40).
Proof.
  intros c0 c.
  assert (H1 : isDragging c = true) by reflexivity.
  assert (H2 : index_in_range c) by (split; by_evaluation).
  assert (H3 : 0 < card_width narrow c) by by_evaluation.
  assert (H4 : 40 <= dragStartX c) by by_evaluation.
  split; [auto |].
  destruct (drag_direction narrow c 40 H1 H2 H3) as [_ H]. apply H, H4.
Defined.

(** X12.  Pressing and releasing the mouse in the same place, on a
    carousel whose index is in range and whose cards have a width, does
    not move it and does not cancel the click that follows; but the
    release is a forced [goTo], so it starts the transition lock, and a
    [next] or [prev] before the timeout is dropped. *)
Theorem press_and_release_in_place (env : Env) (c : Carousel) (pageX : Q) :
  index_in_range c ->
  ~ card_width env c == 0 ->
  let c' := handleMouseUp env (handleMouseDown c pageX) pageX in
  currentIndex c' == currentIndex c
  /\ click_cancelled c' = false
  /\ drag_timeouts c' = drag_timeouts c
  /\ isAnimating c' = true
  /\ next env c' = c'
  /\ prev env c' = c'.
Proof.
  intros [Hlo Hhi] _ c'.
  set (d := handleMouseDown c pageX).
  assert (Hdrag : isDragging d = true) by reflexivity.
  assert (Hanim : isAnimating c' = true) by (apply handleMouseUp_isAnimating, Hdrag).
  destruct (handleMouseUp_dragMoved env d pageX Hdrag) as [Hmoved Htimeouts].
  split; [| split; [exact Hmoved | split; [exact Htimeouts | split; [exact Hanim |]]]].
  - unfold c'. fold d. rewrite (handleMouseUp_index env d pageX Hdrag).
    change (dragStartX d) with pageX. change (currentIndex d) with (currentIndex c).
    change (maxIndex d) with (maxIndex c).
    rewrite round_zero.
    + change (inject_Z 0) with 0.
      transitivity (currentIndex c - 0); [apply NumFacts.clamp_inside; lra | ring].
    + assert (E : (pageX - pageX) / card_width env d == 0) by (unfold Qdiv; ring).
      rewrite E. discriminate.
    + assert (E : (pageX - pageX) / card_width env d == 0) by (unfold Qdiv; ring).
      rewrite E. reflexivity.
  - split; [unfold next | unfold prev]; rewrite Hanim; reflexivity.
Qed.

(** The experiences carousel at index 2, clicked at x = 200. *)
Lemma press_and_release_in_place_witness :
  let c0 := calculateDimensions narrow (constructor_fields (page 10) 10 experiences_options) in
  let c := next_and_settle narrow (next_and_settle narrow c0) in
  let c' := handleMouseUp narrow (handleMouseDown c 200) 200 in
  (index_in_range c /\ ~ card_width narrow c == 0)
  /\ currentIndex c' == 2
  /\ next narrow c' = c'.
Proof.
  intros c0 c c'.
  assert (H1 : index_in_range c) by (split; by_evaluation).
  assert (H2 : ~ card_width narrow c == 0) by by_evaluation.
  split; [auto |].
  destruct (press_and_release_in_place narrow c 200 H1 H2) as (Hidx & _ & _ & _ & Hnext & _).
  unfold c'. split; [rewrite Hidx; by_evaluation | exact Hnext].
Defined.



(** ** Valid configurations *)

Lemma valid_configuration_override o k p :
  valid_configuration o = true ->
  breakpoints o !! k = Some p ->
  positive_slidesPerView p = true.
Proof.
  unfold valid_configuration. intros H Hp.
  apply andb_true_iff in H as [_ H].
  rewrite forallb_forall in H. apply H.
  apply list_elem_of_In, list_elem_of_fmap.
  exists (k, p). split; [reflexivity |].
  apply elem_of_map_to_list. exact Hp.
Qed.

Lemma loop_positive w o keys : forall acc,
  valid_configuration o = true ->
  0 < slidesPerView acc ->
  0 < slidesPerView (fold_left (apply_breakpoint w o) keys acc).
Proof.
  induction keys as [| k keys IH]; intros acc Hvalid Hacc; [exact Hacc |].
  cbn [fold_left]. apply IH; [exact Hvalid |].
  unfold apply_breakpoint. case_bool_decide; [| exact Hacc].
  destruct (breakpoints o !! k) as [p |] eqn:Hp; [| exact Hacc].
  apply (valid_configuration_override o k p Hvalid) in Hp.
  unfold positive_slidesPerView in Hp. cbn.
  destruct (ov_slidesPerView p) as [v |]; [| exact Hacc].
  apply NumFacts.ltb_true, Hp.
Qed.

(** X14.  In a valid configuration the number of slides per view in
    effect is positive at every window width, so [calculateDimensions]
    never divides by zero. *)
Theorem valid_configuration_effective (o : Options) (windowWidth : Z) :
  valid_configuration o = true ->
  0 < slidesPerView (getResponsiveOptions windowWidth o).
Proof.
  intros H. unfold getResponsiveOptions. apply loop_positive; [exact H |].
  unfold valid_configuration in H. apply andb_true_iff in H as [H _].
  apply NumFacts.ltb_true, H.
Qed.

(** The experiences carousel at a width of 800px. *)
Lemma valid_configuration_effective_witness :
  valid_configuration (constructor_options experiences_options) = true
  /\ 0 < slidesPerView (getResponsiveOptions 800 (constructor_options experiences_options)).
Proof.
  assert (H : valid_configuration (constructor_options experiences_options) = true)
    by by_evaluation.
  split; [exact H |].
  apply (valid_configuration_effective _ 800 H).
Defined.

(** ** Geometry *)

(** X15.  With a positive number of slides per view, the slide width that
    [calculateDimensions] sets makes that many slides, with the gaps
    between them, span the container exactly; and when there are at least
    that many slides, the translation at [maxIndex] is the width of the
    whole track minus the width of the container, so the last slide ends
    at the container's right edge. *)
Theorem slides_span_container (env : Env) (c : Carousel) :
  let o := getResponsiveOptions (innerWidth env) (options c) in
  let count := inject_Z (Z.of_nat (slides_length c)) in
  let containerWidth := inject_Z (offsetWidth env) in
  let c' := calculateDimensions env c in
  0 < slidesPerView o ->
  slidesPerView o * slideWidth c' + (slidesPerView o - 1) * gap o == containerWidth
  /\ (slidesPerView o <= count ->
      maxIndex c' * (slideWidth c' + gap o)
      == count * slideWidth c' + (count - 1) * gap o - containerWidth).
Proof.
  intros o count containerWidth c' Hpos.
  assert (Hwidth : slideWidth c' ==
                   (containerWidth - gap o * (slidesPerView o - 1)) / slidesPerView o)
    by reflexivity.
  assert (Hspan : slidesPerView o * slideWidth c' + (slidesPerView o - 1) * gap o
                  == containerWidth).
  { rewrite Hwidth. field. intros E. rewrite E in Hpos. discriminate Hpos. }
  split; [exact Hspan |].
  intros Hfit.
  assert (Hmax : maxIndex c' == count - slidesPerView o).
  { unfold c'. rewrite calculateDimensions_maxIndex. apply Q.max_r.
    fold o count. lra. }
  rewrite Hmax. rewrite <- Hspan. ring.
Qed.

(** The experiences carousel on a desktop: slides of 282px. *)
Lemma slides_span_container_witness :
  let c := constructor_fields (page 10) 10 experiences_options in
  let o := getResponsiveOptions (innerWidth desktop) (options c) in
  0 < slidesPerView o
  /\ slidesPerView o * slideWidth (calculateDimensions desktop c)
     + (slidesPerView o - 1) * gap o == 1200.
Proof.
  intros c o.
  assert (H : 0 < slidesPerView o) by by_evaluation.
  split; [exact H |].
  destruct (slides_span_container desktop c H) as [Hspan _].
  exact Hspan.
Defined.

(** ** The experiences carousel *)

Lemma experiences_lookup k p :
  breakpoints (constructor_options experiences_options) !! k = Some p ->
  (k = 1200%Z /\ p = mkOverrides (Some 3) None None None None)
  \/ (k = 900%Z /\ p = mkOverrides (Some 2) None None None None)
  \/ (k = 600%Z /\ p = mkOverrides (Some (12 # 10)) (Some 16) None None None).
Proof.
  cbv [constructor_options experiences_options breakpoints user_breakpoints default id].
  rewrite !lookup_insert_Some, lookup_empty. intuition congruence.
Qed.

(** X16.  The options [initExperiencesCarousel] passes resolve, for every
    window width, to 1.2 slides with a gap of 16px up to 600px, 2 slides
    up to 900px, 3 slides up to 1200px and 4 slides above, the last three
    with the gap of 24px. *)
Theorem experiences_by_width (windowWidth : Z) :
  let o := getResponsiveOptions windowWidth (constructor_options experiences_options) in
  ((windowWidth ≤ 600)%Z -> slidesPerView o = 12 # 10 /\ gap o = 16)
  /\ ((600 < windowWidth ≤ 900)%Z -> slidesPerView o = 2 /\ gap o = 24)
  /\ ((900 < windowWidth ≤ 1200)%Z -> slidesPerView o = 3 /\ gap o = 24)
  /\ ((1200 < windowWidth)%Z -> slidesPerView o = 4 /\ gap o = 24).
Proof.
  set (base := constructor_options experiences_options).
  assert (Hspv : forall o p, slidesPerView (spread o p) =
                             default (slidesPerView o) (ov_slidesPerView p))
    by reflexivity.
  assert (Hgap : forall o p, gap (spread o p) = default (gap o) (ov_gap p))
    by reflexivity.
  assert (Hnone : forall (A : Type) (pick : Overrides -> option A) k,
             (forall k' p, (windowWidth ≤ k')%Z ->
                breakpoints base !! k' = Some p -> is_Some (pick p) -> (k ≤ k')%Z) ->
             forall k', (k' < k)%Z -> ~ sets_field pick windowWidth base k').
  { intros A pick k H k' Hlt (Hw & p & Hp & Hs). specialize (H k' p Hw Hp Hs). lia. }
  cbv zeta. split; [| split; [| split]]; intros Hw; split.
  - apply (effective_smallest windowWidth base slidesPerView ov_slidesPerView Hspv
             600%Z (mkOverrides (Some (12 # 10)) (Some 16) None None None));
      [lia | reflexivity | reflexivity |].
    apply Hnone. intros k' p _ Hp _.
    apply experiences_lookup in Hp. lia.
  - apply (effective_smallest windowWidth base gap ov_gap Hgap
             600%Z (mkOverrides (Some (12 # 10)) (Some 16) None None None));
      [lia | reflexivity | reflexivity |].
    apply Hnone. intros k' p _ Hp _.
    apply experiences_lookup in Hp. lia.
  - apply (effective_smallest windowWidth base slidesPerView ov_slidesPerView Hspv
             900%Z (mkOverrides (Some 2) None None None None));
      [lia | reflexivity | reflexivity |].
    apply Hnone. intros k' p Hk' Hp _.
    apply experiences_lookup in Hp. lia.
  - apply (effective_base windowWidth base gap ov_gap Hgap).
    intros k (Hk & p & Hp & Hs).
    apply experiences_lookup in Hp as [[-> ->] | [[-> ->] | [-> ->]]];
      cbn in Hs; first [lia | destruct Hs; discriminate].
  - apply (effective_smallest windowWidth base slidesPerView ov_slidesPerView Hspv
             1200%Z (mkOverrides (Some 3) None None None None));
      [lia | reflexivity | reflexivity |].
    apply Hnone. intros k' p Hk' Hp _.
    apply experiences_lookup in Hp. lia.
  - apply (effective_base windowWidth base gap ov_gap Hgap).
    intros k (Hk & p & Hp & Hs).
    apply experiences_lookup in Hp as [[-> ->] | [[-> ->] | [-> ->]]];
      cbn in Hs; first [lia | destruct Hs; discriminate].
  - apply (effective_base windowWidth base slidesPerView ov_slidesPerView Hspv).
    intros k (Hk & p & Hp & Hs).
    apply experiences_lookup in Hp. lia.
  - apply (effective_base windowWidth base gap ov_gap Hgap).
    intros k (Hk & p & Hp & Hs).
    apply experiences_lookup in Hp. lia.
Qed.

(** ** Construction *)

Lemma init_starts_autoplay env t c :
  autoplayInterval c = None ->
  let w := init env t c in
  (autoplay (options c) = true ->
   autoplayInterval (snd w) = Some (next_id t)
   /\ live (fst w) = {[ next_id t ]} ∪ live t)
  /\ (autoplay (options c) = false -> autoplayInterval (snd w) = None /\ fst w = t).
Proof.
  intros Hnone. unfold init, startAutoplay, updateProgress, updateControls.
  cbv zeta. split; intros Hauto.
  - destruct (progressBar _); cbn; rewrite Hauto; cbn; rewrite Hnone; cbn; auto.
  - destruct (progressBar _); cbn; rewrite Hauto; cbn; auto.
Qed.

Lemma init_view env t c :
  let c' := snd (init env t c) in
  prevBtn c' = prevBtn (updateControls (calculateDimensions env c))
  /\ progressBar c' = progressBar (updateProgress (updateControls (calculateDimensions env c)))
  /\ isAnimating c' = isAnimating c
  /\ isDragging c' = isDragging c.
Proof.
  unfold init, startAutoplay. cbv zeta.
  repeat case_match; cbn; repeat split; try reflexivity;
    unfold updateProgress; case_match; reflexivity.
Qed.

Lemma construction_outcome_parts env t element user t' c :
  new_DMCCarousel env t element user = Some (t', c) ->
  currentIndex c = 0 /\ index_in_range c.
Proof.
  intros Hnew. unfold new_DMCCarousel in Hnew.
  destruct element as [container |]; [| discriminate].
  destruct (track_children container) as [[| n] |]; try discriminate.
  injection Hnew as Hnew.
  destruct (init_fields env t (constructor_fields container (S n) user))
    as (_ & _ & Hidx & Hmax).
  rewrite Hnew in Hidx, Hmax. cbn [snd] in *.
  split; [exact Hidx |].
  unfold index_in_range. rewrite Hidx, Hmax.
  split; [apply Qle_refl | apply calculateDimensions_maxIndex_nonneg].
Qed.

Lemma init_rest env t element user t' c :
  new_DMCCarousel env t element user = Some (t', c) ->
  isAnimating c = false.
Proof.
  intros Hnew. unfold new_DMCCarousel in Hnew.
  destruct element as [container |]; [| discriminate].
  destruct (track_children container) as [[| n] |]; try discriminate.
  injection Hnew as Hnew.
  destruct (init_view env t (constructor_fields container (S n) user))
    as (_ & _ & Hanim & _).
  rewrite Hnew in Hanim. exact Hanim.
Qed.

(** X17.  The constructor gives up exactly when there is no container, no
    track in it, or no slide in the track.  Otherwise it stores the
    defaults overwritten by the caller's options and the instance starts
    at index 0, in range, at rest; the previous button, when there is one,
    is disabled unless [infinite] is set; the progress fill, when there is
    one, shows the progress of index 0; and the instance holds an autoplay
    timer, the window's newest, exactly when [autoplay] is set. *)
Theorem construction_outcome (env : Env) (t : Timers)
    (element : option Container) (user : UserOptions) :
  (new_DMCCarousel env t element user = None <->
     element = None
     \/ exists container, element = Some container
          /\ (track_children container = None \/ track_children container = Some 0%nat))
  /\ forall t' c, new_DMCCarousel env t element user = Some (t', c) ->
       options c = constructor_options user
       /\ currentIndex c = 0
       /\ index_in_range c
       /\ isAnimating c = false
       /\ isDragging c = false
       /\ (forall b, prevBtn c = Some b -> b = negb (infinite (options c)))
       /\ (forall w, progressBar c = Some w -> w = progress c)
       /\ (autoplay (options c) = true ->
           autoplayInterval c = Some (next_id t) /\ live t' = {[ next_id t ]} ∪ live t)
       /\ (autoplay (options c) = false -> autoplayInterval c = None /\ t' = t).
Proof.
  split.
  - unfold new_DMCCarousel. destruct element as [container |]; [| tauto].
    destruct (track_children container) as [[| n] |] eqn:Htrack.
    + split; [intros _; right; eauto | reflexivity].
    + split; [discriminate |].
      intros [H | (x & H & [H' | H'])]; [discriminate | |];
        injection H as <-; congruence.
    + split; [intros _; right; eauto | reflexivity].
  - intros t' c Hnew. unfold new_DMCCarousel in Hnew.
    destruct element as [container |]; [| discriminate].
    destruct (track_children container) as [[| n] |]; try discriminate.
    injection Hnew as Hnew.
    set (c0 := constructor_fields container (S n) user) in *.
    destruct (init_fields env t c0) as (Hopt & _ & Hidx & Hmax).
    destruct (init_starts_autoplay env t c0 eq_refl) as [Hon Hoff].
    assert (Hc : c = snd (init env t c0)) by (rewrite Hnew; reflexivity).
    destruct (init_view env t c0) as (Hprev & Hbar & Hanim & Hdrag).
    pose proof Hidx as Hidx'. pose proof Hmax as Hmax'.
    rewrite Hnew in Hopt, Hidx, Hmax', Hon, Hoff. cbn [fst snd] in *.
    split; [exact Hopt |]. split; [exact Hidx |].
    split; [| split; [| split; [| split; [| split; [| split]]]]].
    + unfold index_in_range. rewrite Hidx, Hmax'.
      split; [apply Qle_refl | apply calculateDimensions_maxIndex_nonneg].
    + rewrite Hc, Hanim. reflexivity.
    + rewrite Hc, Hdrag. reflexivity.
    + intros b Hb. rewrite Hc, Hprev in Hb.
      apply updateControls_prevBtn in Hb. rewrite Hb, Hopt.
      cbn. rewrite andb_true_r. reflexivity.
    + intros w Hw. rewrite Hc, Hbar in Hw. unfold updateProgress in Hw.
      destruct (progressBar (updateControls (calculateDimensions env c0))) eqn:E;
        rewrite ?E in Hw; [| discriminate].
      cbn in Hw. injection Hw as <-. rewrite Hc. unfold progress.
      rewrite Hidx', Hmax. reflexivity.
    + rewrite Hopt. exact Hon.
    + rewrite Hopt. exact Hoff.
Qed.

(** The experiences carousel, built. *)
Lemma construction_outcome_witness :
  exists t' c,
    new_DMCCarousel desktop no_timers (Some (page 10)) experiences_options = Some (t', c)
    /\ index_in_range c
    /\ prevBtn c = Some true.
Proof.
  eexists _, _. split; [reflexivity |].
  destruct (construction_outcome desktop no_timers (Some (page 10)) experiences_options)
    as [_ H].
  destruct (H _ _ eq_refl) as (_ & _ & Hrange & _).
  split; [exact Hrange | reflexivity].
Defined.

(** ** Hovering *)

(** X18.  [destroy] stops the autoplay timer but removes no listener: on a
    carousel built with [autoplay], the pointer leaving the container
    after [destroy] starts a new timer, the window's newest; on a carousel
    built without [autoplay] the hover listeners were never installed and
    the pointer entering or leaving changes nothing. *)
Theorem autoplay_resumes_after_destroy (env : Env) (t : Timers) (c : Carousel) :
  (autoplay (options c) = true ->
   let w := step env MouseLeave (step env CallDestroy (t, c)) in
   autoplayInterval (snd w) = Some (next_id t)
   /\ next_id t ∈ live (fst w))
  /\ (autoplay (options c) = false ->
      step env MouseEnter (t, c) = (t, c) /\ step env MouseLeave (t, c) = (t, c)).
Proof.
  split; intros Hauto.
  - cbv zeta. cbn [step]. unfold destroy, stopAutoplay.
    destruct (autoplayInterval c) as [id |] eqn:Hid;
      cbn [step options set_autoplayInterval]; rewrite Hauto;
      unfold startAutoplay; cbn [autoplayInterval set_autoplayInterval];
      rewrite ?Hid; cbn; (split; [reflexivity | set_solver]).
  - cbn [step]. rewrite Hauto. auto.
Qed.

(** The autoplaying carousel, destroyed and then left by the pointer. *)
Lemma autoplay_resumes_after_destroy_witness :
  let c := calculateDimensions desktop
             (constructor_fields (page 10) 10 autoplaying_options) in
  autoplay (options c) = true
  /\ is_Some (autoplayInterval
                (snd (step desktop MouseLeave (step desktop CallDestroy (no_timers, c))))).
Proof.
  intros c.
  assert (H : autoplay (options c) = true) by reflexivity.
  split; [exact H |].
  destruct (autoplay_resumes_after_destroy desktop no_timers c) as [Hon _].
  destruct (Hon H) as [E _]. rewrite E. eauto.
Defined.

(** ** main.js: resizing the why-choose carousel *)

(** X19.  The resize callback of [initWhyChooseCarousel] measures again
    and calls a forced [goTo] to the current index, so afterwards a
    working instance has its index in range whether or not a transition
    was running; it creates the instance only once the container has a
    width, and it throws only for an instance whose constructor had given
    up. *)
Theorem why_choose_resize (env : Env) (t : Timers) (container : Container)
    (carouselInstance : option (option Carousel)) :
  match WhyChoose.resizeTimeout env t container carouselInstance with
  | Some (_, Some (Some c')) => index_in_range c'
  | Some (t', Some None) =>
      carouselInstance = None /\ t' = t /\ (0 < offsetWidth env)%Z
      /\ new_DMCCarousel env t (Some container) why_choose_options = None
  | Some (t', None) => carouselInstance = None /\ t' = t /\ (offsetWidth env ≤ 0)%Z
  | None => carouselInstance = Some None
  end.
Proof.
  unfold WhyChoose.resizeTimeout, WhyChoose.createCarousel.
  destruct carouselInstance as [[c |] |].
  - cbv zeta. unfold index_in_range.
    rewrite goTo_currentIndex, goTo_forced_kept, goTo_maxIndex.
    split; [apply NumFacts.clamp_lower |].
    apply NumFacts.clamp_upper, calculateDimensions_maxIndex_nonneg.
  - reflexivity.
  - destruct (0 <? offsetWidth env)%Z eqn:Hw.
    + apply Z.ltb_lt in Hw.
      destruct (new_DMCCarousel env t (Some container) why_choose_options)
        as [[t' c] |] eqn:Hnew; [| auto].
      destruct (construction_outcome_parts env t (Some container) why_choose_options t' c Hnew)
        as [_ H]. exact H.
    + apply Z.ltb_ge in Hw. auto.
Qed.

(** ** The touch-only variant *)

Lemma same_but_transition_refl c : same_but_transition c c.
Proof. destruct c; reflexivity. Qed.

Lemma legacy_goTo_same env c index :
  same_but_transition (Legacy.goTo env c index) (goTo env c index false).
Proof.
  unfold same_but_transition, Legacy.goTo, goTo. cbn [negb].
  rewrite andb_true_r. cbn [andb].
  destruct (isAnimating c) eqn:Hanim; cbn [orb];
    [destruct c; reflexivity |].
  destruct (Qeq_bool index (currentIndex c)); [destruct c; reflexivity |].
  cbv zeta. unfold updateProgress, updateControls.
  destruct c as [o n pb nb bar ci mi sw ai an dr ds dm tf tt at_ dt].
  destruct dr, pb, nb, bar;
    cbv [set_isAnimating set_currentIndex set_transform set_transition set_buttons
         set_progressBar set_timeouts options slides_length prevBtn nextBtn
         progressBar currentIndex maxIndex slideWidth autoplayInterval isAnimating
         isDragging dragStartX dragMoved track_transform track_transition
         animation_timeouts drag_timeouts];
    match goal with
    | |- context [Qle_bool 0 ?x] => destruct (Qle_bool 0 x)
    end;
    reflexivity.
Qed.

(** X20.  The touch-only variant navigates as the current class does
    without the forced flag: for every state and index its [goTo], [prev]
    and [next] give the state the current methods give, up to the inline
    transition that only the current class writes. *)
Theorem legacy_navigation_agrees (env : Env) (c : Carousel) :
  (forall index, same_but_transition (Legacy.goTo env c index) (goTo env c index false))
  /\ same_but_transition (Legacy.prev env c) (prev env c)
  /\ same_but_transition (Legacy.next env c) (next env c).
Proof.
  split; [intros index; apply legacy_goTo_same |].
  unfold Legacy.prev, prev, Legacy.next, next.
  split; repeat case_match;
    first [apply same_but_transition_refl | apply legacy_goTo_same].
Qed.

Lemma legacy_goTo_currentIndex env c index :
  currentIndex (Legacy.goTo env c index) =
  if goTo_dropped c index false then currentIndex c
  else Num.clamp 0 (maxIndex c) index.
Proof.
  rewrite <- (goTo_currentIndex env c index false).
  pose proof (legacy_goTo_same env c index) as H.
  unfold same_but_transition in H. rewrite <- H. reflexivity.
Qed.

Lemma legacy_next_bounds env c :
  infinite (options c) = false ->
  index_in_range c ->
  currentIndex c <= currentIndex (Legacy.next env c)
  /\ currentIndex (Legacy.next env c) <= currentIndex c + 1.
Proof.
  intros Hinf [Hlo Hhi]. unfold Legacy.next. rewrite Hinf.
  destruct (isAnimating c); [lra |].
  destruct (Num.ltb (currentIndex c) (maxIndex c)) eqn:Hb; [| lra].
  apply NumFacts.ltb_true in Hb.
  rewrite legacy_goTo_currentIndex.
  destruct (goTo_dropped c (currentIndex c + 1) false); [lra |].
  unfold Num.clamp. split.
  - apply Qle_trans with (Qmin (currentIndex c + 1) (maxIndex c));
      [apply Q.min_glb; lra | apply Q.le_max_r].
  - apply Q.max_lub; [lra | apply Q.le_min_l].
Qed.

Lemma legacy_prev_bounds env c :
  infinite (options c) = false ->
  index_in_range c ->
  currentIndex c - 1 <= currentIndex (Legacy.prev env c)
  /\ currentIndex (Legacy.prev env c) <= currentIndex c.
Proof.
  intros Hinf [Hlo Hhi]. unfold Legacy.prev. rewrite Hinf.
  destruct (isAnimating c); [lra |].
  destruct (Num.ltb 0 (currentIndex c)) eqn:Hb; [| lra].
  apply NumFacts.ltb_true in Hb.
  rewrite legacy_goTo_currentIndex.
  destruct (goTo_dropped c (currentIndex c - 1) false); [lra |].
  unfold Num.clamp. split.
  - apply Qle_trans with (Qmin (currentIndex c - 1) (maxIndex c));
      [apply Q.min_glb; lra | apply Q.le_max_r].
  - apply Q.max_lub; [lra |].
    apply Qle_trans with (currentIndex c - 1); [apply Q.le_min_l | lra].
Qed.

Lemma legacy_swipe_left env i :
  50 < Legacy.touchStartX i - Legacy.touchEndX i ->
  Legacy.carousel (Legacy.handleTouchEnd env i) = Legacy.next env (Legacy.carousel i).
Proof.
  intros H. unfold Legacy.handleTouchEnd. cbv zeta.
  assert (Ha : Num.ltb 50 (Qabs (Legacy.touchStartX i - Legacy.touchEndX i)) = true).
  { apply NumFacts.ltb_true. rewrite Qabs_pos by lra. exact H. }
  assert (Hp : Num.ltb 0 (Legacy.touchStartX i - Legacy.touchEndX i) = true)
    by (apply NumFacts.ltb_true; lra).
  rewrite Ha, Hp. reflexivity.
Qed.

(** X21.  In the touch-only variant a swipe is decided by the distance
    between the start of the touch and its last move: up to 50px nothing
    happens, more than 50px to the left calls [next] and to the right
    [prev]; and however long the swipe, without [infinite] a carousel
    whose index is in range moves by at most one slide. *)
Theorem legacy_swipe (env : Env) (i : Legacy.Instance) :
  let diff := Legacy.touchStartX i - Legacy.touchEndX i in
  let i' := Legacy.handleTouchEnd env i in
  (Qabs diff <= 50 -> i' = i)
  /\ (50 < diff -> Legacy.carousel i' = Legacy.next env (Legacy.carousel i))
  /\ (diff < - (50) -> Legacy.carousel i' = Legacy.prev env (Legacy.carousel i))
  /\ (infinite (options (Legacy.carousel i)) = false ->
      index_in_range (Legacy.carousel i) ->
      currentIndex (Legacy.carousel i) - 1 <= currentIndex (Legacy.carousel i')
      /\ currentIndex (Legacy.carousel i') <= currentIndex (Legacy.carousel i) + 1).
Proof.
  intros diff i'. unfold i', Legacy.handleTouchEnd. fold diff. cbv zeta.
  split; [| split; [| split]].
  - intros H. apply NumFacts.ltb_false in H. rewrite H. reflexivity.
  - intros H. apply (legacy_swipe_left env i H).
  - intros H.
    assert (Ha : Num.ltb 50 (Qabs diff) = true).
    { apply NumFacts.ltb_true. rewrite Qabs_neg by lra. lra. }
    assert (Hp : Num.ltb 0 diff = false) by (apply NumFacts.ltb_false; lra).
    rewrite Ha, Hp. reflexivity.
  - intros Hinf Hrange.
    pose proof (legacy_next_bounds env _ Hinf Hrange) as Hn.
    pose proof (legacy_prev_bounds env _ Hinf Hrange) as Hp.
    destruct (Num.ltb 50 (Qabs diff)); [| lra].
    destruct (Num.ltb 0 diff); cbn [Legacy.carousel]; lra.
Qed.

(** The experiences carousel on a phone, swiped 120px to the left. *)
Lemma legacy_swipe_witness :
  let c := calculateDimensions phone (constructor_fields (page 10) 10 experiences_options) in
  let i := Legacy.mkInstance c 300 180 in
  50 < Legacy.touchStartX i - Legacy.touchEndX i
  /\ currentIndex (Legacy.carousel (Legacy.handleTouchEnd phone i)) == 1.
Proof.
  intros c i.
  assert (H : 50 < Legacy.touchStartX i - Legacy.touchEndX i) by by_evaluation.
  split; [exact H |].
  destruct (legacy_swipe phone i) as (_ & Hnext & _).
  rewrite (Hnext H). by_evaluation.
Defined.

(** X22.  In the touch-only variant a touch that ends without having moved
    is measured against where the previous gesture ended, and against 0
    after construction: on a carousel just built, with at least one full
    step to go, a first tap at a [clientX] above 50 calls [next] and moves
    to index 1. *)
Theorem legacy_tap_is_measured_from_last_gesture (env : Env) (i : Legacy.Instance)
    (clientX : Q) :
  (50 < clientX - Legacy.touchEndX i ->
   Legacy.carousel (Legacy.handleTouchEnd env (Legacy.handleTouchStart i clientX))
   = Legacy.next env (Legacy.carousel i))
  /\ (forall env0 t element user t',
        Legacy.new_DMCCarousel env0 t element user = Some (t', i) ->
        50 < clientX ->
        1 <= maxIndex (Legacy.carousel i) ->
        currentIndex
          (Legacy.carousel (Legacy.handleTouchEnd env (Legacy.handleTouchStart i clientX)))
        == 1).
Proof.
  assert (Hstale : 50 < clientX - Legacy.touchEndX i ->
            Legacy.carousel (Legacy.handleTouchEnd env (Legacy.handleTouchStart i clientX))
            = Legacy.next env (Legacy.carousel i)).
  { intros H. apply (legacy_swipe_left env (Legacy.handleTouchStart i clientX)). exact H. }
  split; [exact Hstale |].
  intros env0 t element user t' Hnew Hx Hmax.
  unfold Legacy.new_DMCCarousel in Hnew.
  destruct (new_DMCCarousel env0 t element user) as [[t0 c] |] eqn:Hc; [| discriminate].
  injection Hnew as _ <-.
  destruct (construction_outcome_parts env0 t element user t0 c Hc) as [Hidx _].
  pose proof (init_rest env0 t element user t0 c Hc) as Hanim.
  cbn [Legacy.touchEndX Legacy.carousel] in *.
  rewrite Hstale by (cbn; lra). unfold Legacy.next.
  cbn [Legacy.carousel]. rewrite Hanim.
  assert (Hb : Num.ltb (currentIndex c) (maxIndex c) = true)
    by (apply NumFacts.ltb_true; rewrite Hidx; lra).
  rewrite Hb, legacy_goTo_currentIndex.
  assert (Hkept : goTo_dropped c (currentIndex c + 1) false = false).
  { unfold goTo_dropped. rewrite Hanim. cbn.
    apply not_true_iff_false. intros E. apply Qeq_bool_iff in E. lra. }
  rewrite Hkept, Hidx. apply NumFacts.clamp_inside; lra.
Qed.

(** * lazy-load.js *)

Module LazyLoadFacts.
Import LazyLoad.

Lemma selected_img_not_no_lazy i : selected_img i = true -> no_lazy i = false.
Proof.
  unfold selected_img. intros H. apply andb_true_iff in H as [H _].
  apply negb_true_iff, H.
Qed.

Lemma truthy_srcset_restored attribute :
  (if truthy (srcset_property attribute)
   then Some (srcset_property attribute) else attribute) = attribute.
Proof.
  unfold truthy, srcset_property. destruct attribute as [v |]; cbn.
  - case_bool_decide; reflexivity.
  - reflexivity.
Qed.

(** X23.  An image the script takes (not [no-lazy], not yet processed, no
    data attribute of its own) is emptied and later restored: after
    processing, an image that had a source shows the placeholder and has
    lost its [srcset]; after the preload has succeeded its [src] attribute
    is the URL its [src] property had, its [srcset] attribute is what it
    was, the data attributes are gone and it has the classes [lazy-image]
    and [loaded] on top of its own.  When resolving a resolved URL changes
    nothing, the [src] property is what it was. *)
Theorem image_round_trip (resolve : string -> string) (i : Img) :
  selected_img i = true ->
  img_data_src i = None ->
  img_data_srcset i = None ->
  let lazy := process_img resolve i in
  let shown := onload lazy in
  (truthy (src_property resolve i) = true ->
   img_src lazy = Some placeholder
   /\ img_data_src lazy = Some (src_property resolve i))
  /\ (truthy (srcset_property (img_srcset i)) = true -> img_srcset lazy = None)
  /\ img_src shown =
     (if truthy (src_property resolve i) then Some (src_property resolve i) else img_src i)
  /\ img_srcset shown = img_srcset i
  /\ img_data_src shown = None
  /\ img_data_srcset shown = None
  /\ img_classes shown = {[ "loaded"%string; "lazy-image"%string ]} ∪ img_classes i
  /\ ((forall u, resolve (resolve u) = resolve u) ->
      src_property resolve shown = src_property resolve i).
Proof.
  intros Hsel Hsrc Hset lazy shown.
  apply selected_img_not_no_lazy in Hsel.
  unfold shown, lazy, process_img, onload. rewrite Hsel. cbv zeta.
  pose proof (truthy_srcset_restored (img_srcset i)) as Hrestored.
  destruct (truthy (src_property resolve i)) eqn:Hs;
    cbn [img_src img_srcset img_data_src img_data_srcset img_processed img_classes];
    destruct (truthy (srcset_property (img_srcset i))) eqn:Hss;
    cbn [img_src img_srcset img_data_src img_data_srcset img_processed img_classes];
    rewrite ?Hsrc, ?Hset;
    cbn [img_src img_srcset img_data_src img_data_srcset img_processed img_classes];
    (split; [intros H; first [discriminate H | split; reflexivity] |]);
    (split; [intros H; first [discriminate H | reflexivity] |]);
    (split; [reflexivity |]);
    (split; [first [exact Hrestored | reflexivity] |]);
    (split; [reflexivity |]);
    (split; [reflexivity |]);
    (split; [set_solver |]);
    intros Hidem; unfold src_property in *;
    cbn [img_src img_srcset img_data_src img_data_srcset img_processed img_classes];
    destruct (img_src i); first [apply Hidem | reflexivity | discriminate].
Qed.

(** X24.  When the preload fails, the image gets its [src] back but not
    its [srcset]: an image the script took, with a [srcset] of its own,
    ends without [srcset] attribute, the value still in [data-srcset], and
    with the classes [loaded] and [error]. *)
Theorem failed_preload_loses_srcset (resolve : string -> string) (i : Img) :
  selected_img i = true ->
  img_data_src i = None ->
  truthy (srcset_property (img_srcset i)) = true ->
  let broken := onerror (process_img resolve i) in
  img_srcset broken = None
  /\ img_data_srcset broken = img_srcset i
  /\ img_src broken =
     (if truthy (src_property resolve i) then Some (src_property resolve i) else img_src i)
  /\ img_data_src broken = None
  /\ img_classes broken
     = {[ "loaded"%string; "error"%string; "lazy-image"%string ]} ∪ img_classes i.
Proof.
  intros Hsel Hsrc Hss broken.
  apply selected_img_not_no_lazy in Hsel.
  unfold broken, process_img, onerror. rewrite Hsel. cbv zeta.
  pose proof (truthy_srcset_restored (img_srcset i)) as Hrestored.
  rewrite Hss in Hrestored.
  destruct (truthy (src_property resolve i)) eqn:Hs;
    cbn [img_src img_srcset img_data_src img_data_srcset img_processed img_classes];
    rewrite Hss;
    cbn [img_src img_srcset img_data_src img_data_srcset img_processed img_classes];
    rewrite ?Hsrc;
    cbn [img_src img_srcset img_data_src img_data_srcset img_processed img_classes];
    (split; [reflexivity |]);
    (split; [exact Hrestored |]);
    (split; [reflexivity |]);
    (split; [reflexivity | set_solver]).
Qed.

(** An image with a source and a [srcset]. *)
Lemma failed_preload_loses_srcset_witness :
  let i := mkImg (Some "a.jpg"%string) (Some "a.jpg 1x, b.jpg 2x"%string) None None false ∅ in
  (selected_img i = true /\ img_data_src i = None
   /\ truthy (srcset_property (img_srcset i)) = true)
  /\ img_srcset (onerror (process_img (fun u => u) i)) = None.
Proof.
  intros i.
  assert (H1 : selected_img i = true) by reflexivity.
  assert (H2 : img_data_src i = None) by reflexivity.
  assert (H3 : truthy (srcset_property (img_srcset i)) = true) by reflexivity.
  split; [auto |].
  apply (failed_preload_loses_srcset (fun u => u) i H1 H2 H3).
Defined.

(** X25.  The script serves images written with [data-src] and no [src]:
    the preload takes the URL from [data-src] and puts it in [src].  An
    image written with both loses the [data-src] of its author:
    processing overwrites it with the URL of [src], which is what the
    image shows in the end. *)
Theorem authored_data_src (resolve : string -> string) (i : Img) (authored : string) :
  selected_img i = true ->
  img_data_src i = Some authored ->
  let shown := onload (process_img resolve i) in
  (truthy (src_property resolve i) = false ->
   img_data_src (process_img resolve i) = Some authored
   /\ img_src shown = Some authored)
  /\ (truthy (src_property resolve i) = true ->
      img_data_src (process_img resolve i) = Some (src_property resolve i)
      /\ img_src shown = Some (src_property resolve i))
  /\ img_data_src shown = None.
Proof.
  intros Hsel Hsrc shown.
  apply selected_img_not_no_lazy in Hsel.
  unfold shown, process_img, onload. rewrite Hsel. cbv zeta.
  destruct (truthy (src_property resolve i)) eqn:Hs;
    cbn [img_src img_srcset img_data_src img_data_srcset img_processed img_classes];
    destruct (truthy (srcset_property (img_srcset i))) eqn:Hss;
    cbn [img_src img_srcset img_data_src img_data_srcset img_processed img_classes];
    rewrite ?Hsrc;
    cbn [img_src img_srcset img_data_src img_data_srcset img_processed img_classes];
    try (destruct (img_data_srcset i);
         cbn [img_src img_srcset img_data_src img_data_srcset img_processed img_classes];
         rewrite ?Hsrc;
         cbn [img_src img_srcset img_data_src img_data_srcset img_processed img_classes]);
    (split; [intros H; first [discriminate H | split; reflexivity] |]);
    (split; [intros H; first [discriminate H | split; reflexivity] |]);
    reflexivity.
Qed.

(** An image written with [data-src] only. *)
Lemma authored_data_src_witness :
  let i := mkImg None None (Some "big.jpg"%string) None false ∅ in
  (selected_img i = true /\ img_data_src i = Some "big.jpg"%string)
  /\ img_src (onload (process_img (fun u => u) i)) = Some "big.jpg"%string.
Proof.
  intros i.
  assert (H1 : selected_img i = true) by reflexivity.
  assert (H2 : img_data_src i = Some "big.jpg"%string) by reflexivity.
  split; [auto |].
  destruct (authored_data_src (fun u => u) i "big.jpg" H1 H2) as [H _].
  apply H. reflexivity.
Defined.

(** A plain image with a source and a [srcset]. *)
Lemma image_round_trip_witness :
  let i := mkImg (Some "a.jpg"%string) (Some "a.jpg 1x, b.jpg 2x"%string) None None false ∅ in
  (selected_img i = true /\ img_data_src i = None /\ img_data_srcset i = None)
  /\ img_src (process_img (fun u => u) i) = Some placeholder
  /\ img_src (onload (process_img (fun u => u) i)) = Some "a.jpg"%string
  /\ img_srcset (onload (process_img (fun u => u) i)) = img_srcset i.
Proof.
  intros i.
  assert (H1 : selected_img i = true) by reflexivity.
  assert (H2 : img_data_src i = None) by reflexivity.
  assert (H3 : img_data_srcset i = None) by reflexivity.
  split; [auto |].
  destruct (image_round_trip (fun u => u) i H1 H2 H3) as (Ha & _ & Hb & Hc & _).
  split; [apply Ha; reflexivity |]. split; [exact Hb | exact Hc].
Defined.

(** ** The page *)

Lemma elem_of_lazy_positions gs pos :
  pos ∈ lazy_positions gs <->
  exists i, image_at gs pos = Some i /\ selected_img i = true.
Proof.
  unfold lazy_positions, image_at. rewrite list_elem_of_join. split.
  - intros (l & Hpos & Hl).
    apply elem_of_lookup_imap in Hl as (g & grp & -> & Hg).
    apply list_elem_of_omap in Hpos as (o & Ho & Hid). cbn in Hid. subst o.
    apply elem_of_lookup_imap in Ho as (k & i & Hki & Hk).
    destruct (selected_img i) eqn:Hsel; [| discriminate].
    injection Hki as ->. cbn. rewrite Hg. cbn. eauto.
  - intros (i & Hat & Hsel). destruct pos as [g k]. cbn in Hat.
    destruct (gs !! g) as [grp |] eqn:Hg; [| discriminate]. cbn in Hat.
    eexists. split; [| apply (elem_of_lookup_imap_2 _ gs grp g Hg)].
    apply list_elem_of_omap. exists (Some (g, k)). split; [| reflexivity].
    apply elem_of_lookup_imap. exists k, i. rewrite Hsel. auto.
Qed.

Lemma image_at_process resolve gs pos :
  image_at (map (process_group resolve) gs) pos =
  (fun i => if selected_img i then process_img resolve i else i) <$> image_at gs pos.
Proof.
  unfold image_at. change (map (process_group resolve) gs) with (process_group resolve <$> gs).
  rewrite list_lookup_fmap. destruct (gs !! fst pos) as [grp |]; [| reflexivity].
  cbn. apply (list_lookup_fmap _ (images grp)).
Qed.

Lemma loadImage_frame p pos :
  styleSheets (loadImage p pos) = styleSheets p
  /\ observed (loadImage p pos) = observed p
  /\ (forall pos', image_at (groups (loadImage p pos)) pos' = image_at (groups p) pos')
  /\ preloading p ⊆ preloading (loadImage p pos)
  /\ preloading (loadImage p pos) ⊆ {[ pos ]} ∪ preloading p.
Proof.
  unfold loadImage.
  destruct (groups p !! fst pos) as [grp |] eqn:Hg; [| repeat split; set_solver].
  destruct (images grp !! snd pos) as [i |] eqn:Hi; [| repeat split; set_solver].
  cbn. split; [reflexivity |]. split; [reflexivity |]. split.
  - intros pos'. unfold image_at.
    destruct (decide (fst pos = fst pos')) as [E | E].
    + rewrite <- E, list_lookup_insert_eq by (eapply lookup_lt_Some, Hg).
      rewrite Hg. reflexivity.
    + rewrite list_lookup_insert_ne by exact E. reflexivity.
  - case_bool_decide; set_solver.
Qed.

Lemma fold_loadImage_frame l : forall p,
  let p' := fold_left loadImage l p in
  styleSheets p' = styleSheets p
  /\ observed p' = observed p
  /\ (forall pos', image_at (groups p') pos' = image_at (groups p) pos')
  /\ preloading p ⊆ preloading p'
  /\ preloading p' ⊆ list_to_set l ∪ preloading p.
Proof.
  induction l as [| pos l IH]; intros p; cbn.
  - repeat split; set_solver.
  - destruct (IH (loadImage p pos)) as (H1 & H2 & H3 & H4 & H5).
    destruct (loadImage_frame p pos) as (F1 & F2 & F3 & F4 & F5).
    split; [congruence |]. split; [congruence |]. split.
    + intros pos'. rewrite H3. apply F3.
    + split; set_solver.
Qed.

Lemma settle_image_at handler p pos pos' :
  image_at (groups (settle handler p pos)) pos' =
  if bool_decide (pos ∈ preloading p /\ pos = pos')
  then handler <$> image_at (groups p) pos'
  else image_at (groups p) pos'.
Proof.
  unfold settle. case_bool_decide as Hin.
  - cbn. unfold image_at. destruct (decide (pos = pos')) as [-> | Hne].
    + rewrite bool_decide_eq_true_2 by auto.
      rewrite list_lookup_alter_eq. destruct (groups p !! fst pos') as [grp |]; [| reflexivity].
      cbn. apply list_lookup_alter_eq.
    + rewrite bool_decide_eq_false_2 by tauto.
      destruct (decide (fst pos = fst pos')) as [E | E].
      * rewrite <- E, list_lookup_alter_eq.
        destruct (groups p !! fst pos) as [grp |]; [| reflexivity].
        cbn. apply list_lookup_alter_ne. intros E'. apply Hne.
        destruct pos, pos'; cbn in *; congruence.
      * rewrite list_lookup_alter_ne by exact E. reflexivity.
  - rewrite bool_decide_eq_false_2 by tauto. reflexivity.
Qed.

Section Runs.

Variables (resolve : string -> string) (has_observer : bool) (gs : list Group).

Lemma no_lazy_kept_parsed : no_lazy_kept gs (parsed gs).
Proof. intros pos i Hat Hno. cbn. split; [exact Hat | set_solver]. Qed.

Lemma no_lazy_not_lazy p pos i :
  no_lazy_kept gs p ->
  image_at gs pos = Some i -> no_lazy i = true ->
  pos ∉ lazy_positions (groups p).
Proof.
  intros Hinv Hat Hno Hin.
  apply elem_of_lazy_positions in Hin as (i' & Hat' & Hsel).
  destruct (Hinv pos i Hat Hno) as (Hsame & _).
  rewrite Hsame in Hat'. injection Hat' as <-.
  apply selected_img_not_no_lazy in Hsel. congruence.
Qed.

Lemma initLazyLoading_kept p :
  no_lazy_kept gs p -> no_lazy_kept gs (initLazyLoading resolve has_observer p).
Proof.
  intros Hinv pos i Hat Hno.
  destruct (Hinv pos i Hat Hno) as (Hsame & Hobs & Hpre).
  pose proof (no_lazy_not_lazy p pos i Hinv Hat Hno) as Hlazy.
  assert (Hprocessed : image_at (map (process_group resolve) (groups p)) pos = Some i).
  { rewrite image_at_process, Hsame. cbn. unfold selected_img. rewrite Hno. reflexivity. }
  unfold initLazyLoading. cbv zeta.
  destruct (nothing_selected (groups p)); [cbn; auto |].
  destruct has_observer.
  - cbn. split; [exact Hprocessed |]. split; [| exact Hpre].
    rewrite elem_of_union, elem_of_list_to_set. tauto.
  - match goal with
    | |- context [fold_left loadImage ?l ?q] =>
        destruct (fold_loadImage_frame l q) as (_ & H2 & H3 & _ & H5)
    end.
    rewrite H3, H2. cbn [groups observed]. split; [exact Hprocessed |].
    split; [exact Hobs |]. intros Hin. apply H5 in Hin. cbn [preloading] in Hin.
    rewrite elem_of_union, elem_of_list_to_set in Hin. tauto.
Qed.

Lemma step_kept p ev :
  no_lazy_kept gs p -> no_lazy_kept gs (step resolve has_observer p ev).
Proof.
  intros Hinv. destruct ev as [| pos' | pos' | pos']; cbn [step].
  - apply initLazyLoading_kept, Hinv.
  - intros pos i Hat Hno. destruct (Hinv pos i Hat Hno) as (Hsame & Hobs & Hpre).
    unfold intersecting. case_bool_decide as Hin; [| auto].
    destruct (loadImage_frame p pos') as (_ & F2 & F3 & _ & F5).
    cbn. rewrite F3, F2. split; [exact Hsame |]. split; [set_solver |].
    intros Hp. apply F5 in Hp. set_solver.
  - intros pos i Hat Hno. destruct (Hinv pos i Hat Hno) as (Hsame & Hobs & Hpre).
    rewrite settle_image_at.
    rewrite bool_decide_eq_false_2 by (intros [Hin ->]; contradiction).
    split; [exact Hsame |]. unfold settle. case_bool_decide; cbn; set_solver.
  - intros pos i Hat Hno. destruct (Hinv pos i Hat Hno) as (Hsame & Hobs & Hpre).
    rewrite settle_image_at.
    rewrite bool_decide_eq_false_2 by (intros [Hin ->]; contradiction).
    split; [exact Hsame |]. unfold settle. case_bool_decide; cbn; set_solver.
Qed.

Lemma run_kept evs : forall p,
  no_lazy_kept gs p -> no_lazy_kept gs (run resolve has_observer evs p).
Proof.
  induction evs as [| ev evs IH]; intros p Hinv; [exact Hinv |].
  cbn. apply IH, step_kept, Hinv.
Qed.

End Runs.

(** X26.  An image with the class [no-lazy] is never touched: on a page as
    parsed, whatever sequence of initialisations, intersections and ends
    of preloads follows, with or without [IntersectionObserver], the image
    keeps every attribute and class it had (it is not even marked as
    processed), and it is never observed nor preloaded. *)
Theorem no_lazy_image_untouched (resolve : string -> string) (has_observer : bool)
    (gs : list Group) (evs : list Event) (pos : nat * nat) (i : Img) :
  image_at gs pos = Some i ->
  no_lazy i = true ->
  let p := run resolve has_observer evs (parsed gs) in
  image_at (groups p) pos = Some i
  /\ (pos ∉ observed p)
  /\ (pos ∉ preloading p).
Proof.
  intros Hat Hno p.
  apply (run_kept resolve has_observer gs evs (parsed gs) (no_lazy_kept_parsed gs) pos i);
    assumption.
Qed.

(** One image with [no-lazy] beside one without; the page is initialised,
    the second image intersects and loads, the page is initialised
    again. *)
Lemma no_lazy_image_untouched_witness :
  let hero := mkImg (Some "hero.jpg"%string) None None None false {[ "no-lazy"%string ]} in
  let card := mkImg (Some "card.jpg"%string) None None None false ∅ in
  let gs := [mkGroup [] [hero]; mkGroup [] [card]] in
  let evs := [Refresh; Intersecting (1, 0)%nat; Loaded (1, 0)%nat; Refresh] in
  (image_at gs (0, 0)%nat = Some hero /\ no_lazy hero = true)
  /\ image_at (groups (run (fun u => u) true evs (parsed gs))) (0, 0)%nat = Some hero.
Proof.
  intros hero card gs evs.
  assert (H1 : image_at gs (0, 0)%nat = Some hero) by reflexivity.
  assert (H2 : no_lazy hero = true) by reflexivity.
  split; [auto |].
  apply (no_lazy_image_untouched (fun u => u) true gs evs (0, 0)%nat hero H1 H2).
Defined.

(** ** Initialising again *)

Lemma nothing_selected_iff gs :
  nothing_selected gs = true <->
  (forall pos i, image_at gs pos = Some i -> selected_img i = false)
  /\ (forall g grp s, gs !! g = Some grp -> s ∈ sources grp -> source_processed s = true).
Proof.
  unfold nothing_selected. rewrite forallb_forall. split.
  - intros H. split.
    + intros [g k] i Hat. unfold image_at in Hat. cbn in Hat.
      destruct (gs !! g) as [grp |] eqn:Hg; [| discriminate]. cbn in Hat.
      assert (Hin : In grp gs) by (apply list_elem_of_In, list_elem_of_lookup; eauto).
      apply H, andb_true_iff in Hin as [Himgs _].
      rewrite forallb_forall in Himgs.
      apply negb_true_iff, Himgs, list_elem_of_In, list_elem_of_lookup. eauto.
    + intros g grp s Hg Hs.
      assert (Hin : In grp gs) by (apply list_elem_of_In, list_elem_of_lookup; eauto).
      apply H, andb_true_iff in Hin as [_ Hsrcs].
      rewrite forallb_forall in Hsrcs.
      apply list_elem_of_In, Hsrcs in Hs. unfold selected_source in Hs.
      apply negb_true_iff, negb_false_iff in Hs. exact Hs.
  - intros [Himgs Hsrcs] grp Hin.
    apply list_elem_of_In, list_elem_of_lookup in Hin as [g Hg].
    apply andb_true_iff. split; apply forallb_forall.
    + intros i Hi. apply list_elem_of_In, list_elem_of_lookup in Hi as [k Hk].
      apply negb_true_iff, (Himgs (g, k)). unfold image_at. cbn. rewrite Hg. exact Hk.
    + intros s Hs. apply list_elem_of_In in Hs.
      unfold selected_source. rewrite (Hsrcs g grp s Hg Hs). reflexivity.
Qed.

Lemma process_img_unselected resolve i :
  selected_img (if selected_img i then process_img resolve i else i) = false.
Proof.
  destruct (selected_img i) eqn:Hsel; [| exact Hsel].
  apply selected_img_not_no_lazy in Hsel.
  unfold process_img. rewrite Hsel. cbv zeta.
  unfold selected_img. cbn [img_processed]. apply andb_false_r.
Qed.

Lemma process_source_processed skip s :
  source_processed (if selected_source s then process_source skip s else s) = true.
Proof.
  unfold selected_source, process_source.
  destruct (source_processed s) eqn:H; cbn; [exact H |].
  destruct skip; [reflexivity |]. case_match; reflexivity.
Qed.

Lemma process_nothing_selected resolve gs :
  nothing_selected (map (process_group resolve) gs) = true.
Proof.
  apply nothing_selected_iff. split.
  - intros pos i. rewrite image_at_process.
    destruct (image_at gs pos) as [i0 |]; [| discriminate].
    cbn. intros H. injection H as <-. apply process_img_unselected.
  - intros g grp s Hg Hs.
    change (map (process_group resolve) gs) with (process_group resolve <$> gs) in Hg.
    rewrite list_lookup_fmap in Hg.
    destruct (gs !! g) as [grp0 |]; [| discriminate]. cbn in Hg. injection Hg as <-.
    cbn in Hs. apply list_elem_of_fmap in Hs as (s0 & -> & _).
    apply process_source_processed.
Qed.

Lemma restore_source_processed s :
  source_processed (restore_source s) = source_processed s.
Proof. unfold restore_source. case_match; reflexivity. Qed.

Lemma loadImage_nothing_selected p pos :
  nothing_selected (groups p) = true ->
  nothing_selected (groups (loadImage p pos)) = true.
Proof.
  rewrite !nothing_selected_iff. intros [Himgs Hsrcs].
  destruct (loadImage_frame p pos) as (_ & _ & F3 & _).
  split; [intros pos' i; rewrite F3; apply Himgs |].
  unfold loadImage.
  destruct (groups p !! fst pos) as [grp |] eqn:Hg; [| exact Hsrcs].
  destruct (images grp !! snd pos) as [i |]; [| exact Hsrcs].
  cbn. intros g grp' s Hg' Hs.
  destruct (decide (fst pos = g)) as [<- | Hne].
  - rewrite list_lookup_insert_eq in Hg' by (eapply lookup_lt_Some, Hg).
    injection Hg' as <-. cbn in Hs.
    apply list_elem_of_fmap in Hs as (s0 & -> & Hs0).
    rewrite restore_source_processed. apply (Hsrcs _ _ _ Hg Hs0).
  - rewrite list_lookup_insert_ne in Hg' by exact Hne.
    apply (Hsrcs _ _ _ Hg' Hs).
Qed.

Lemma fold_loadImage_nothing_selected l : forall p,
  nothing_selected (groups p) = true ->
  nothing_selected (groups (fold_left loadImage l p)) = true.
Proof.
  induction l as [| pos l IH]; intros p H; [exact H |].
  cbn. apply IH, loadImage_nothing_selected, H.
Qed.

Lemma initLazyLoading_nothing_selected resolve has_observer p :
  nothing_selected (groups (initLazyLoading resolve has_observer p)) = true.
Proof.
  unfold initLazyLoading. cbv zeta.
  destruct (nothing_selected (groups p)) eqn:H; [exact H |].
  destruct has_observer.
  - apply process_nothing_selected.
  - apply fold_loadImage_nothing_selected, process_nothing_selected.
Qed.

(** X27.  Initialising twice processes nothing twice: after
    [initLazyLoading], with or without [IntersectionObserver], a second
    call leaves every image and source, the observed images and the
    preloads as they are (so the placeholder is never taken for the source
    of an image); but every call, also one that finds nothing to do,
    appends one more style element. *)
Theorem initLazyLoading_again (resolve : string -> string) (has_observer : bool) (p : Page) :
  let p1 := initLazyLoading resolve has_observer p in
  let p2 := initLazyLoading resolve has_observer p1 in
  groups p2 = groups p1
  /\ observed p2 = observed p1
  /\ preloading p2 = preloading p1
  /\ styleSheets p1 = S (styleSheets p)
  /\ styleSheets p2 = S (S (styleSheets p)).
Proof.
  intros p1 p2.
  assert (H1 : styleSheets p1 = S (styleSheets p)).
  { unfold p1, initLazyLoading. cbv zeta.
    destruct (nothing_selected (groups p)); [reflexivity |].
    destruct has_observer; [reflexivity |].
    match goal with
    | |- context [fold_left loadImage ?l ?q] =>
        destruct (fold_loadImage_frame l q) as (H & _)
    end.
    rewrite H. reflexivity. }
  assert (E : p2 = mkPage (S (styleSheets p1)) (groups p1) (observed p1) (preloading p1)).
  { pose proof (initLazyLoading_nothing_selected resolve has_observer p) as Hn.
    fold p1 in Hn. unfold p2, initLazyLoading. cbv zeta. rewrite Hn. reflexivity. }
  rewrite E. cbn. rewrite H1. auto.
Qed.

(** ** From the first initialisation to the loaded image *)

Lemma process_img_data_src resolve i :
  selected_img i = true ->
  truthy (src_property resolve i) = true ->
  img_data_src (process_img resolve i) = Some (src_property resolve i).
Proof.
  intros Hsel Hs. apply selected_img_not_no_lazy in Hsel.
  unfold process_img. rewrite Hsel, Hs. cbv zeta.
  cbn [img_src img_srcset img_data_src img_data_srcset img_processed img_classes].
  case_match; reflexivity.
Qed.

Lemma source_round_trip s :
  source_processed s = false ->
  source_data_srcset s = None ->
  source_srcset
    (restore_source (if selected_source s then process_source false s else s))
  = source_srcset s.
Proof.
  intros Hp Hd. unfold selected_source. rewrite Hp. cbn [negb].
  unfold process_source.
  pose proof (truthy_srcset_restored (source_srcset s)) as Hrestored.
  destruct (truthy (srcset_property (source_srcset s))); unfold restore_source; cbn.
  - exact Hrestored.
  - rewrite Hd. reflexivity.
Qed.

(** X28.  With [IntersectionObserver], an image the script takes on the
    parsed page is observed after the initialisation; when it then
    intersects and its preload succeeds, the sources of its picture have
    the [srcset] they were written with, the image is the processed image
    after [onload], and it is neither observed nor preloading any more.
    (This needs an image with a source to preload, a picture whose first
    image is not [no-lazy], and sources without data attributes.) *)
Theorem picture_round_trip (resolve : string -> string) (gs : list Group)
    (g k : nat) (grp : Group) (i : Img) :
  gs !! g = Some grp ->
  images grp !! k = Some i ->
  selected_img i = true ->
  truthy (src_property resolve i) = true ->
  (forall first, head (images grp) = Some first -> no_lazy first = false) ->
  Forall (fun s => source_processed s = false /\ source_data_srcset s = None) (sources grp) ->
  let lazy := initLazyLoading resolve true (parsed gs) in
  let p := run resolve true [Intersecting (g, k); Loaded (g, k)] lazy in
  (g, k) ∈ observed lazy
  /\ (exists grp',
        groups p !! g = Some grp'
        /\ source_srcset <$> sources grp' = source_srcset <$> sources grp
        /\ images grp' !! k = Some (onload (process_img resolve i)))
  /\ ((g, k) ∉ observed p)
  /\ ((g, k) ∉ preloading p).
Proof.
  intros Hg Hk Hsel Hs Hfirst Hsrcs lazy p.
  assert (Hat : image_at gs (g, k) = Some i)
    by (unfold image_at; cbn; rewrite Hg; exact Hk).
  assert (Hns : nothing_selected gs = false).
  { apply not_true_iff_false. intros H. apply nothing_selected_iff in H as [H _].
    rewrite (H _ _ Hat) in Hsel. discriminate. }
  assert (Elazy : lazy = mkPage 1 (map (process_group resolve) gs)
                           (list_to_set (lazy_positions gs) ∪ ∅) ∅).
  { unfold lazy, initLazyLoading, parsed. cbv zeta.
    cbn [groups styleSheets observed preloading]. rewrite Hns. reflexivity. }
  assert (Hobs : (g, k) ∈ observed lazy).
  { rewrite Elazy. cbn. apply elem_of_union_l, elem_of_list_to_set.
    apply elem_of_lazy_positions. eauto. }
  assert (Hskip : match images grp with
                  | first :: _ => no_lazy first
                  | [] => false
                  end = false).
  { destruct (images grp) as [| first rest]; [reflexivity |].
    apply Hfirst. reflexivity. }
  assert (Hgrp : groups lazy !! g = Some (process_group resolve grp)).
  { rewrite Elazy. cbn. change (map (process_group resolve) gs)
      with (process_group resolve <$> gs). rewrite list_lookup_fmap, Hg. reflexivity. }
  assert (Himg : images (process_group resolve grp) !! k = Some (process_img resolve i)).
  { cbn. rewrite (list_lookup_fmap _ (images grp)), Hk. cbn. rewrite Hsel. reflexivity. }
  assert (Hload : loadImage lazy (g, k) =
            mkPage (styleSheets lazy)
              (<[g := mkGroup (map restore_source (sources (process_group resolve grp)))
                        (images (process_group resolve grp))]> (groups lazy))
              (observed lazy) ({[ (g, k) ]} ∪ preloading lazy)).
  { unfold loadImage. cbn [fst snd]. rewrite Hgrp, Himg.
    rewrite bool_decide_eq_true_2; [reflexivity |].
    right. rewrite (process_img_data_src resolve i Hsel Hs). eauto. }
  assert (Ep : p = settle onload
                 (mkPage (styleSheets lazy)
                    (<[g := mkGroup (map restore_source (sources (process_group resolve grp)))
                              (images (process_group resolve grp))]> (groups lazy))
                    (observed lazy ∖ {[ (g, k) ]}) ({[ (g, k) ]} ∪ preloading lazy))
                 (g, k)).
  { unfold p. cbn [run fold_left step]. unfold intersecting.
    rewrite bool_decide_eq_true_2 by exact Hobs. rewrite Hload. reflexivity. }
  assert (Hlen : (g < length (groups lazy))%nat) by (eapply lookup_lt_Some, Hgrp).
  split; [exact Hobs |].
  rewrite Ep. unfold settle. cbn [preloading].
  rewrite bool_decide_eq_true_2 by set_solver. cbn [groups observed preloading fst snd].
  split; [| split; set_solver].
  eexists. split.
  - rewrite list_lookup_alter_eq, list_lookup_insert_eq by exact Hlen. reflexivity.
  - unfold process_group. cbv zeta. cbn [sources images]. split.
    + rewrite Hskip. clear -Hsrcs.
      induction Hsrcs as [| s l [Hp Hd] _ IH]; [reflexivity |].
      cbn [map fmap list_fmap]. f_equal; [apply source_round_trip; assumption | exact IH].
    + rewrite list_lookup_alter_eq.
      rewrite (list_lookup_fmap _ (images grp)), Hk. cbn. rewrite Hsel. reflexivity.
Qed.

(** A picture with one source and one image. *)
Lemma picture_round_trip_witness :
  let i := mkImg (Some "a.jpg"%string) None None None false ∅ in
  let s := mkSource (Some "a.webp"%string) None false in
  let gs := [mkGroup [s] [i]] in
  let p := run (fun u => u) true [Intersecting (0, 0)%nat; Loaded (0, 0)%nat]
             (initLazyLoading (fun u => u) true (parsed gs)) in
  (selected_img i = true /\ truthy (src_property (fun u => u) i) = true)
  /\ ((0, 0)%nat ∉ preloading p).
Proof.
  intros i s gs p.
  assert (H1 : selected_img i = true) by reflexivity.
  assert (H2 : truthy (src_property (fun u => u) i) = true) by reflexivity.
  split; [auto |].
  apply (picture_round_trip (fun u => u) gs 0 0 (mkGroup [s] [i]) i);
    [reflexivity | reflexivity | exact H1 | exact H2 | |].
  - intros first H. injection H as <-. reflexivity.
  - repeat constructor.
Defined.

End LazyLoadFacts.
